(** * mark-ai: chunking, vector index, context retrieval and result cache

    A shallow embedding of the retrieval-augmented context pipeline of the
    backend (vectorstore/chunker.py, vectorstore/indexer.py,
    vectorstore/store.py, vectorstore/retrieval.py, market_analysis/cache.py)
    together with the properties its specification states about it. *)

From Stdlib Require Import ZArith Lia Ascii String List.
From stdpp Require Import base tactics option list gmap strings pretty.

Local Open Scope Z_scope.

(** ** Python values

    A Python [str] is the list of its characters; characters are the code
    points below 256.  A Python [int] is a [Z]. *)

Abbreviation str := (list ascii).

Definition lit (s : string) : str := list_ascii_of_string s.

Module Py.

Definition len (s : str) : Z := Z.of_nat (length s).

(** Index normalisation of slices and of the [start]/[end] arguments of
    [str.rfind]: a negative index counts from the end, and the result is
    clipped to [0 .. len]. *)
Definition clamp (n i : Z) : Z :=
  if i <? 0 then Z.max (i + n) 0 else Z.min i n.

(** [s[start:stop]], for a [str] and for a [list] alike *)
Definition slice {A} (s : list A) (start stop : Z) : list A :=
  let n := Z.of_nat (length s) in
  let a := clamp n start in
  let b := clamp n stop in
  take (Z.to_nat (b - a)) (drop (Z.to_nat a) s).

(** [s[:stop]] *)
Definition slice_to {A} (s : list A) (stop : Z) : list A := slice s 0 stop.

(** Greatest position of [c] in [l], if any. *)
Fixpoint last_index (c : ascii) (l : str) : option nat :=
  match l with
  | [] => None
  | x :: l' =>
      match last_index c l' with
      | Some i => Some (S i)
      | None => if decide (x = c) then Some 0%nat else None
      end
  end.

(** [s.rfind(c, start, stop)] for a one-character needle. *)
Definition rfind (c : ascii) (s : str) (start stop : Z) : Z :=
  let a := clamp (len s) start in
  match last_index c (slice s start stop) with
  | Some i => a + Z.of_nat i
  | None => -1
  end.

(** [c.isspace()] on the code points below 256. *)
Definition isspace (c : ascii) : bool :=
  let n := Z.of_N (N_of_ascii c) in
  ((9 <=? n) && (n <=? 13)) || ((28 <=? n) && (n <=? 32))
  || (n =? 133) || (n =? 160).

Fixpoint lstrip (s : str) : str :=
  match s with
  | [] => []
  | c :: s' => if isspace c then lstrip s' else s
  end.

Definition rstrip (s : str) : str := reverse (lstrip (reverse s)).

(** [s.strip()] *)
Definition strip (s : str) : str := rstrip (lstrip s).

(** First position at which [sub] occurs in [s]; [s.find(sub)] is this
    position or -1, and [sub in s] is whether there is one. *)
Fixpoint find_from (sub s : str) (i : nat) : option nat :=
  if decide (take (length sub) s = sub) then Some i
  else match s with
       | [] => None
       | _ :: s' => find_from sub s' (S i)
       end.

Definition find (s sub : str) : Z :=
  match find_from sub s 0 with Some i => Z.of_nat i | None => -1 end.

Definition contains (s sub : str) : bool :=
  bool_decide (is_Some (find_from sub s 0)).

(** [str(i)] for an [int]. *)
Definition str_of_int (i : Z) : str := lit (pretty i).

(** [sep.join(parts)] *)
Fixpoint join (sep : str) (parts : list str) : str :=
  match parts with
  | [] => []
  | [p] => p
  | p :: ps => p ++ sep ++ join sep ps
  end.

(** The number of characters of a list of strings together. *)
Definition sum_len (parts : list str) : Z :=
  foldr (λ p acc, len p + acc) 0 parts.

(** The outcome of a call that may raise an exception. *)
Inductive result (A : Type) : Type :=
  | Ok (a : A)
  | Raise.
Global Arguments Ok {A} a.
Global Arguments Raise {A}.

End Py.

(** ** vectorstore/chunker.py *)

Module Chunker.
Import Py.

Definition newline : ascii := "010"%char.
Definition space : ascii := " "%char.

(** The value of [end] when a window starting at [start] is cut: the hard
    boundary [start + chunk_size], moved back to just after the last
    newline, else the last space, when one lies past the midpoint. *)
Definition window_end (text : str) (chunk_size start : Z) : Z :=
  let end_ := start + chunk_size in
  if end_ <? len text then
    let newline_pos := rfind newline text start end_ in
    if newline_pos >? start + chunk_size / 2 then newline_pos + 1
    else
      let space_pos := rfind space text start end_ in
      if space_pos >? start + chunk_size / 2 then space_pos + 1
      else end_
  else end_.

(** The value of [start] for the next iteration. *)
Definition next_start (text : str) (overlap end_ : Z) : Z :=
  if end_ <? len text then end_ - overlap else end_.

(** The [while start < len(text)] loop; [fuel] bounds the number of
    iterations, and [None] is a run that needs more. *)
Fixpoint chunk_loop (fuel : nat) (text : str) (chunk_size overlap : Z)
    (start : Z) (chunks : list str) : option (list str) :=
  if start <? len text then
    match fuel with
    | O => None
    | S fuel' =>
        let end_ := window_end text chunk_size start in
        let chunks' := chunks ++ [strip (slice text start end_)] in
        chunk_loop fuel' text chunk_size overlap
          (next_start text overlap end_) chunks'
    end
  else Some chunks.

Definition chunk_text (fuel : nat) (text : str) (chunk_size overlap : Z)
    : option (list str) :=
  if len text <=? chunk_size then Some [text]
  else chunk_loop fuel text chunk_size overlap 0 [].

(** The same loop recording, instead of the chunk, the window
    [(start, end)] whose trimmed content the chunk is. *)
Fixpoint window_loop (fuel : nat) (text : str) (chunk_size overlap : Z)
    (start : Z) (ws : list (Z * Z)) : option (list (Z * Z)) :=
  if start <? len text then
    match fuel with
    | O => None
    | S fuel' =>
        let end_ := window_end text chunk_size start in
        window_loop fuel' text chunk_size overlap
          (next_start text overlap end_) (ws ++ [(start, end_)])
    end
  else Some ws.

Definition chunk_of_window (text : str) (w : Z * Z) : str :=
  strip (slice text w.1 w.2).

(** How two consecutive windows [w1], [w2] lie in the text: the second
    starts [ov] characters before the end of the first and ends no
    earlier. *)
Definition adjacent (text : str) (ov : Z) (w1 w2 : Z * Z) : Prop :=
  w2.1 = w1.2 - ov ∧ 0 ≤ w1.1 ∧ w1.1 ≤ w2.1 ∧ w1.2 < len text ∧
  w1.2 ≤ w2.2.

(** A metadata value: Chroma stores strings and numbers, and the chunker
    also writes [None]. *)
Inductive mval : Type :=
  | MStr (s : str)
  | MInt (i : Z)
  | MNone.

Global Instance mval_eq_dec : EqDecision mval.
Proof. solve_decision. Defined.

(** The dict [{"id": .., "text": .., "metadata": {..}}] of one chunk. *)
Record chunk : Type := Chunk {
  id : str;
  text : str;
  metadata : gmap str mval
}.

(** A documentation dict; both keys are read with [doc[..]]. *)
Record doc : Type := Doc {
  path : str;
  content : str
}.

(** A commit dict; all keys but [hash] and [message] are read with
    [.get] and may be absent. *)
Record commit : Type := Commit {
  hash : str;
  message : str;
  author : option str;
  date : option str;
  files : option (list str);
  diff : option str
}.

Definition doc_chunk (path : str) (total : Z) (idx : nat) (c : str) : chunk :=
  {| id := lit "doc:" ++ path ++ lit ":" ++ str_of_int (Z.of_nat idx);
     text := c;
     metadata :=
       <[lit "type" := MStr (lit "doc")]>
       (<[lit "path" := MStr path]>
       (<[lit "chunk_idx" := MInt (Z.of_nat idx)]>
       (<[lit "total_chunks" := MInt total]> ∅))) |}.

(** [chunk_text(content, chunk_size=1500, overlap=200)] is run with one
    unit of fuel per character, which these parameters never exhaust
    (lemma [chunk_text_1500_200] below). *)
Fixpoint chunk_documentation (docs : list doc) (max_chunks_per_doc : Z)
    : option (list chunk) :=
  match docs with
  | [] => Some []
  | d :: docs' =>
      if decide (strip (content d) = []) then
        chunk_documentation docs' max_chunks_per_doc
      else
        chunks ← chunk_text (length (content d)) (content d) 1500 200;
        rest ← chunk_documentation docs' max_chunks_per_doc;
        Some (imap (doc_chunk (path d)
                      (Z.min (Z.of_nat (length chunks)) max_chunks_per_doc))
                   (slice_to chunks max_chunks_per_doc) ++ rest)
  end.

Definition commit_metadata (sha message author date : str) (file : mval)
    : gmap str mval :=
  <[lit "type" := MStr (lit "commit")]>
  (<[lit "sha" := MStr sha]>
  (<[lit "message" := MStr message]>
  (<[lit "author" := MStr author]>
  (<[lit "date" := MStr date]>
  (<[lit "file" := file]> ∅))))).

(** The chunks one iteration of the [for commit in commits] loop adds. *)
Definition commit_chunks (c : commit) (max_files_per_commit max_diff_chars : Z)
    : list chunk :=
  let sha := hash c in
  let message := message c in
  let author := default (lit "Unknown") (author c) in
  let date := default [] (date c) in
  let files := default [] (files c) in
  let diff := default [] (diff c) in
  if bool_decide (files = []) && negb (bool_decide (diff = [])) then
    [ {| id := lit "commit:" ++ sha ++ lit ":0";
         text := lit "Commit: " ++ message ++ [newline] ++
                 lit "Author: " ++ author ++ [newline] ++
                 lit "Date: " ++ date ++ [newline; newline] ++
                 lit "Diff:" ++ [newline] ++ slice_to diff max_diff_chars;
         metadata := commit_metadata sha message author date MNone |} ]
  else
    imap (λ idx file_path,
      let diff_snippet :=
        if bool_decide (diff = []) then []
        else if contains diff file_path then
          let start := find diff file_path in
          slice diff start (start + max_diff_chars)
        else slice_to diff max_diff_chars in
      {| id := lit "commit:" ++ sha ++ lit ":" ++ str_of_int (Z.of_nat idx);
         text := lit "Commit: " ++ message ++ [newline] ++
                 lit "File: " ++ file_path ++ [newline] ++
                 lit "Author: " ++ author ++ [newline] ++
                 lit "Date: " ++ date ++ [newline; newline] ++
                 lit "Diff:" ++ [newline] ++ diff_snippet;
         metadata := commit_metadata sha message author date (MStr file_path) |})
      (slice_to files max_files_per_commit).

Fixpoint chunk_commits (commits : list commit)
    (max_files_per_commit max_diff_chars : Z) : list chunk :=
  match commits with
  | [] => []
  | c :: commits' =>
      commit_chunks c max_files_per_commit max_diff_chars ++
      chunk_commits commits' max_files_per_commit max_diff_chars
  end.

End Chunker.

(** ** The Chroma collection, as the repository uses it

    A collection maps an id to a document and its metadata; the embedding
    Chroma stores beside them is a function of the document and is not
    repeated here.  A client holds the collections of one persist
    directory by name. *)

Module Chroma.
Import Py.

Record entry (M : Type) : Type := Entry {
  document : str;
  meta : M
}.
Global Arguments Entry {M} document meta.
Global Arguments document {M} e.
Global Arguments meta {M} e.

(** What [collection.add] does with an id the collection already holds:
    it keeps the stored entry and logs a warning, or it rejects the whole
    call, depending on the Chroma release. *)
Inductive id_policy : Type :=
  | KeepExisting
  | RejectExisting.

Section Collection.
Context {M : Type}.

Definition add_one (col : gmap str (entry M)) (r : str * entry M)
    : gmap str (entry M) :=
  match col !! r.1 with
  | Some _ => col
  | None => <[r.1 := r.2]> col
  end.

(** [collection.add(ids=.., documents=.., metadatas=..)]; a batch that
    repeats an id is refused before anything is written. *)
Definition add (pol : id_policy) (batch : list (str * entry M))
    (col : gmap str (entry M)) : result (gmap str (entry M)) :=
  if bool_decide (NoDup batch.*1) then
    match pol with
    | KeepExisting => Ok (foldl add_one col batch)
    | RejectExisting =>
        if bool_decide (Exists (λ r, is_Some (col !! r.1)) batch)
        then Raise
        else Ok (foldl add_one col batch)
    end
  else Raise.

(** [collection.update(ids=[id], documents=[d], metadatas=[m])] *)
Definition update (id : str) (e : entry M) (col : gmap str (entry M))
    : gmap str (entry M) :=
  match col !! id with
  | Some _ => <[id := e]> col
  | None => col
  end.

(** [collection.delete(ids=ids)] *)
Definition delete_ids (ids : list str) (col : gmap str (entry M))
    : gmap str (entry M) :=
  foldr delete col ids.

(** [client.get_or_create_collection(name)]: the client afterwards and
    the content of the collection. *)
Definition get_or_create_collection (name : str)
    (client : gmap str (gmap str (entry M)))
    : gmap str (gmap str (entry M)) * gmap str (entry M) :=
  match client !! name with
  | Some col => (client, col)
  | None => (<[name := ∅]> client, ∅)
  end.
End Collection.

End Chroma.

(** ** vectorstore/store.py and vectorstore/indexer.py *)

Module Indexer.
Import Py Chunker Chroma.

(** The [documentation] and [commits] keys of [repo_data], read with
    [.get(key, [])]. *)
Record repo_data : Type := RepoData {
  documentation : option (list doc);
  commits : option (list commit)
}.

Section WithHash.
(** [hashlib.sha256(s.encode()).hexdigest()] *)
Variable sha256_hexdigest : str → str.
Variable pol : id_policy.

Definition get_repo_hash (repo_url : str) : str :=
  slice_to (sha256_hexdigest repo_url) 16.

Definition resolve_collection_name (repo_url : str)
    (collection_name : option str) : str :=
  match collection_name with
  | Some name => name
  | None => lit "repo_" ++ get_repo_hash repo_url
  end.

Definition chunk_record (c : chunk) : str * entry (gmap str mval) :=
  (id c, Entry (text c) (metadata c)).

(** [index_repo(repo_data, repo_url, persist_dir, collection_name)] on
    the client of [persist_dir]: the outcome of the call and the client
    afterwards. *)
Definition index_repo (data : repo_data) (repo_url : str)
    (collection_name : option str)
    (client : gmap str (gmap str (entry (gmap str mval))))
    : option (result str * gmap str (gmap str (entry (gmap str mval)))) :=
  let name := resolve_collection_name repo_url collection_name in
  let '(client, collection) := get_or_create_collection name client in
  doc_chunks ← chunk_documentation (default [] (documentation data)) 5;
  let commit_chunks := chunk_commits (default [] (commits data)) 5 1000 in
  let all_chunks := doc_chunks ++ commit_chunks in
  if decide (all_chunks = []) then Some (Ok name, client)
  else
    match add pol (chunk_record <$> all_chunks) collection with
    | Ok collection' => Some (Ok name, <[name := collection']> client)
    | Raise => Some (Raise, client)
    end.
End WithHash.

End Indexer.

(** ** vectorstore/retrieval.py *)

Module Retrieval.
Import Py Chunker Chroma.

(** The dict [collection.query] returns: one inner list per query text. *)
Record query_result (D : Type) : Type := QueryResult {
  documents : list (list str);
  metadatas : list (list (gmap str mval));
  distances : list (list D)
}.
Global Arguments QueryResult {D} documents metadatas distances.
Global Arguments documents {D} q.
Global Arguments metadatas {D} q.
Global Arguments distances {D} q.

Definition no_results : str :=
  lit "No relevant context found in the repository.".
Definition no_results_within_limits : str :=
  lit "No relevant context found within size limits.".
Definition delimiter : str := [newline] ++ lit "---" ++ [newline; newline].

(** [f"{v}"] of a metadata value. *)
Definition format_mval (v : mval) : str :=
  match v with
  | MStr s => s
  | MInt i => str_of_int i
  | MNone => lit "None"
  end.

(** The provenance header of one result; slicing a [sha] that is not a
    string raises. *)
Definition header_of (md : gmap str mval) : result str :=
  let doc_type := default (MStr (lit "unknown")) (md !! lit "type") in
  if decide (doc_type = MStr (lit "doc")) then
    let path := default (MStr (lit "unknown")) (md !! lit "path") in
    Ok (lit "[Documentation: " ++ format_mval path ++ lit "]")
  else if decide (doc_type = MStr (lit "commit")) then
    match default (MStr (lit "unknown")) (md !! lit "sha") with
    | MStr sha =>
        let message := default (MStr []) (md !! lit "message") in
        Ok (lit "[Commit " ++ slice_to sha 8 ++ lit ": " ++
            format_mval message ++ lit "]")
    | _ => Raise
    end
  else Ok (lit "[" ++ format_mval doc_type ++ lit "]").

(** The [for doc, metadata, distance in zip(..)] loop, from the state
    [(context_parts, total_chars)]. *)
Fixpoint assemble {D} (rs : list (str * gmap str mval * D))
    (max_context_chars : Z) (context_parts : list str) (total_chars : Z)
    : result (list str) :=
  match rs with
  | [] => Ok context_parts
  | (doc, md, _) :: rs' =>
      if total_chars + len doc >? max_context_chars then Ok context_parts
      else
        match header_of md with
        | Ok header =>
            assemble rs' max_context_chars
              (context_parts ++ [header ++ [newline] ++ doc ++ [newline]])
              (total_chars + len doc + len header + 2)
        | Raise => Raise
        end
  end.

Definition zip3 {A B C} (l1 : list A) (l2 : list B) (l3 : list C)
    : list (A * B * C) :=
  zip (zip l1 l2) l3.

(** The part of [retrieve_context] after the query. *)
Definition assemble_context {D} (results : query_result D)
    (max_context_chars : Z) : result str :=
  match documents results with
  | [] | [] :: _ => Ok no_results
  | docs :: _ =>
      (* [results["metadatas"][0]] and [results["distances"][0]] *)
      match metadatas results, distances results with
      | mds :: _, dists :: _ =>
          match assemble (zip3 docs mds dists) max_context_chars [] 0 with
          | Ok [] => Ok no_results_within_limits
          | Ok context_parts => Ok (join delimiter context_parts)
          | Raise => Raise
          end
      | _, _ => Raise
      end
  end.

Section WithQuery.
Context {D : Type}.
Variable sha256_hexdigest : str → str.
(** [collection.query(query_texts=[query], n_results=k, include=..)] *)
Variable query_collection :
  gmap str (entry (gmap str mval)) → str → Z → query_result D.

Definition retrieve_context (query repo_url : str) (k : Z)
    (collection_name : option str) (max_context_chars : Z)
    (client : gmap str (gmap str (entry (gmap str mval))))
    : result str * gmap str (gmap str (entry (gmap str mval))) :=
  let name :=
    Indexer.resolve_collection_name sha256_hexdigest repo_url
      collection_name in
  let '(client, collection) := get_or_create_collection name client in
  let results := query_collection collection query k in
  (assemble_context results max_context_chars, client).
End WithQuery.

End Retrieval.

(** ** market_analysis/cache.py *)

Module Cache.
Import Py Chroma.

(** The values [json.dumps] accepts and [json.loads] returns: a dict is a
    finite map from its string keys. *)
#[warnings="-register-all"]
Inductive json : Type :=
  | JNull
  | JBool (b : bool)
  | JNum (z : Z)
  | JStr (s : str)
  | JArr (l : list json)
  | JObj (m : gmap str json).

(** The metadata dict of a cache entry.  A [datetime] is its number of
    microseconds; the ISO text Chroma holds for [cached_at] and
    [expires_at] is what [isoformat] prints and [fromisoformat] reads
    back, so the entry keeps the [datetime] itself. *)
Record cache_meta : Type := CacheMeta {
  project_description : str;
  tech_stack : str;
  target_audience : str;
  cached_at : Z;
  expires_at : Z
}.

Definition cache_name : str := lit "market_analysis_cache".

(** [timedelta(days=d)] *)
Definition days (d : Z) : Z := d * 86400000000.

Section WithLibraries.
(** [hashlib.md5(s.encode()).hexdigest()] *)
Variable md5_hexdigest : str → str.
(** [json.dumps(v, indent=2)] and [json.loads(s)] ([None]: it raises) *)
Variable dumps : json → str.
Variable loads : str → option json.
(** [datetime.isoformat()] *)
Variable isoformat : Z → str.
Variable pol : id_policy.

Definition get_cache_key (project_description tech_stack target_audience : str)
    : str :=
  let combined :=
    project_description ++ lit "|" ++ tech_stack ++ lit "|" ++
    target_audience in
  md5_hexdigest combined.

(** [init_market_cache]: the client with the cache collection in it. *)
Definition init_market_cache
    (client : gmap str (gmap str (entry cache_meta)))
    : gmap str (gmap str (entry cache_meta)) :=
  match client !! cache_name with
  | Some _ => client
  | None => <[cache_name := ∅]> client
  end.

(** [client.get_collection(name="market_analysis_cache")] after
    [init_market_cache]. *)
Definition cache_collection
    (client : gmap str (gmap str (entry cache_meta)))
    : gmap str (entry cache_meta) :=
  default ∅ (client !! cache_name).

(** [cache_market_analysis]; [now1] and [now2] are the two readings of
    [datetime.now()], for [cached_at] and for [expires_at]. *)
Definition cache_market_analysis (now1 now2 : Z)
    (project_description tech_stack target_audience : str)
    (market_data : json) (ttl_days : Z)
    (client : gmap str (gmap str (entry cache_meta)))
    : result (gmap str (gmap str (entry cache_meta))) :=
  let client := init_market_cache client in
  let collection := cache_collection client in
  let cache_key :=
    get_cache_key project_description tech_stack target_audience in
  let metadata :=
    {| project_description := slice_to project_description 500;
       tech_stack := slice_to tech_stack 200;
       target_audience := target_audience;
       cached_at := now1;
       expires_at := now2 + days ttl_days |} in
  let document := dumps market_data in
  match collection !! cache_key with
  | Some _ =>
      Ok (<[cache_name :=
              update cache_key (Entry document metadata) collection]> client)
  | None =>
      match add pol [(cache_key, Entry document metadata)] collection with
      | Ok collection' => Ok (<[cache_name := collection']> client)
      | Raise => Raise
      end
  end.

Definition cache_info (metadata : cache_meta) : json :=
  JObj (<[lit "cached_at" := JStr (isoformat (cached_at metadata))]>
       (<[lit "expires_at" := JStr (isoformat (expires_at metadata))]>
       (<[lit "from_cache" := JBool true]> ∅))).

(** [get_cached_market_analysis] at time [now]: the returned value
    ([None] is Python's [None], a miss) and the client afterwards.  An
    exception inside the [try] also returns [None]. *)
Definition get_cached_market_analysis (now : Z)
    (project_description tech_stack target_audience : str)
    (client : gmap str (gmap str (entry cache_meta)))
    : option json * gmap str (gmap str (entry cache_meta)) :=
  let client := init_market_cache client in
  let collection := cache_collection client in
  let cache_key :=
    get_cache_key project_description tech_stack target_audience in
  match collection !! cache_key with
  | None => (None, client)
  | Some e =>
      let metadata := meta e in
      if now >? expires_at metadata then
        (None, <[cache_name := delete_ids [cache_key] collection]> client)
      else
        match loads (document e) with
        | Some (JObj market_data) =>
            (Some (JObj (<[lit "_cache_info" := cache_info metadata]>
                           market_data)),
             client)
        | _ => (None, client)
        end
  end.

(** [clear_expired_cache] at time [now]. *)
Definition clear_expired_cache (now : Z)
    (client : gmap str (gmap str (entry cache_meta)))
    : Z * gmap str (gmap str (entry cache_meta)) :=
  let client := init_market_cache client in
  let collection := cache_collection client in
  let all_entries := map_to_list collection in
  if decide (all_entries = []) then (0, client)
  else
    let expired_ids :=
      (filter (λ r, now > expires_at (meta r.2)) all_entries).*1 in
    let client' :=
      if decide (expired_ids = []) then client
      else <[cache_name := delete_ids expired_ids collection]> client in
    (Z.of_nat (length expired_ids), client').
End WithLibraries.

End Cache.

(** ** The remaining functions of the cache, the store, the indexer and the
    retriever *)

Module ChunkIds.
Import Py Chunker.

(** The id formats of the chunker: [f"doc:{path}:{idx}"] and
    [f"commit:{sha}:{idx}"]. *)
Definition doc_id (path : str) (idx : nat) : str :=
  lit "doc:" ++ path ++ lit ":" ++ str_of_int (Z.of_nat idx).

Definition commit_id (sha : str) (idx : nat) : str :=
  lit "commit:" ++ sha ++ lit ":" ++ str_of_int (Z.of_nat idx).

(** The chunks [chunk_documentation] makes of one document whose content
    [chunk_text] has cut into [chunks]. *)
Definition doc_chunks_of (d : doc) (max_chunks_per_doc : Z)
    (chunks : list str) : list chunk :=
  imap (doc_chunk (path d)
          (Z.min (Z.of_nat (length chunks)) max_chunks_per_doc))
       (slice_to chunks max_chunks_per_doc).

(** The pieces of the content of a document, as [chunk_documentation]
    gets them from [chunk_text]. *)
Definition doc_text_chunks (d : doc) : list str :=
  default [] (chunk_text (length (content d)) (content d) 1500 200).

(** The chunks one iteration of the [for doc in docs] loop adds. *)
Definition doc_part (max_chunks_per_doc : Z) (d : doc) : list chunk :=
  if decide (strip (content d) = []) then []
  else doc_chunks_of d max_chunks_per_doc (doc_text_chunks d).

End ChunkIds.

Module CacheStats.
Import Py Chroma Cache.

(** The dict [get_cache_stats] returns. *)
Record cache_stats : Type := CacheStats {
  total_entries : Z;
  expired_entries : Z;
  valid_entries : Z
}.

(** An entry of the cache, with its key, is past its [expires_at]. *)
Definition expired (now : Z) (r : str * entry cache_meta) : Prop :=
  expires_at (meta r.2) < now.

Global Instance expired_dec now r : Decision (expired now r).
Proof. unfold expired. apply _. Defined.

(** The entry [cache_market_analysis] writes under the key, given
    [json.dumps]. *)
Definition written_entry (dumps : json → str) (now1 now2 : Z)
    (pd ts ta : str) (market_data : json) (ttl_days : Z)
    : entry cache_meta :=
  Entry (dumps market_data)
    {| project_description := slice_to pd 500;
       tech_stack := slice_to ts 200;
       target_audience := ta;
       cached_at := now1;
       expires_at := now2 + days ttl_days |}.

(** The [for metadata in all_entries['metadatas']] loop of
    [get_cache_stats]: the number of entries with [now > expires_at]. *)
Definition count_expired (now : Z) (metadatas : list cache_meta) : Z :=
  foldl (λ expired_count metadata,
           if now >? expires_at metadata then expired_count + 1
           else expired_count)
        0 metadatas.

(** [get_cache_stats] at time [now]. *)
Definition get_cache_stats (now : Z)
    (client : gmap str (gmap str (entry cache_meta)))
    : cache_stats * gmap str (gmap str (entry cache_meta)) :=
  let client := init_market_cache client in
  let collection := cache_collection client in
  let all_entries := map_to_list collection in
  if decide (all_entries = []) then
    ({| total_entries := 0; expired_entries := 0; valid_entries := 0 |},
     client)
  else
    let expired_count := count_expired now (meta <$> all_entries.*2) in
    let total := Z.of_nat (length all_entries) in
    ({| total_entries := total;
        expired_entries := expired_count;
        valid_entries := total - expired_count |},
     client).

End CacheStats.

Module Store.
Import Py Chroma.

(** [delete_collection(client, collection_name)]: [client.delete_collection]
    raises for a name the client does not hold, which gives [False]. *)
Definition delete_collection {M} (collection_name : str)
    (client : gmap str (gmap str (entry M)))
    : bool * gmap str (gmap str (entry M)) :=
  match client !! collection_name with
  | Some _ => (true, delete collection_name client)
  | None => (false, client)
  end.

End Store.

Module IndexerStats.
Import Py Chunker Chroma ChunkIds Indexer.

(** The list [all_chunks] of [index_repo]: the chunks of the documents,
    then those of the commits. *)
Definition repo_chunks (data : repo_data) : list chunk :=
  (default [] (documentation data) ≫= doc_part 5) ++
  chunk_commits (default [] (commits data)) 5 1000.

(** What [get_collection_stats] returns: the statistics, or the
    [{"error": ..}] dict when the collection does not exist. *)
Inductive collection_stats : Type :=
  | Stats (collection_name : str)
          (total_chunks sample_doc_chunks sample_commit_chunks : Z)
  | StatsError.

(** [sum(1 for m in metadatas if m.get("type") == t)] *)
Definition count_type (t : str) (metadatas : list (gmap str mval)) : Z :=
  Z.of_nat (length (filter (λ m, m !! lit "type" = Some (MStr t)) metadatas)).

(** [get_collection_stats(collection_name, persist_dir)]; the sample is the
    first [min(10, count)] entries in the order the store lists them. *)
Definition get_collection_stats (collection_name : str)
    (client : gmap str (gmap str (entry (gmap str mval))))
    : collection_stats :=
  match client !! collection_name with
  | None => StatsError
  | Some collection =>
      let count := Z.of_nat (size collection) in
      let sample :=
        take (Z.to_nat (Z.min 10 count)) (map_to_list collection) in
      let metadatas := meta <$> sample.*2 in
      Stats collection_name count
        (count_type (lit "doc") metadatas)
        (count_type (lit "commit") metadatas)
  end.

(** The entry [index_repo] stores for a chunk. *)
Definition stored (c : chunk) : entry (gmap str mval) :=
  Entry (text c) (metadata c).

End IndexerStats.

Module RetrievalSearch.
Import Py Chunker Chroma Retrieval.

(** The dict [{"document": .., "metadata": .., "distance": ..}] of one
    result of [search_repo]. *)
Record search_hit (D : Type) : Type := SearchHit {
  hit_document : str;
  hit_metadata : gmap str mval;
  hit_distance : D
}.
Global Arguments SearchHit {D} hit_document hit_metadata hit_distance.
Global Arguments hit_document {D} s.
Global Arguments hit_metadata {D} s.
Global Arguments hit_distance {D} s.

(** The part of [search_repo] after the query. *)
Definition format_results {D} (results : query_result D)
    : result (list (search_hit D)) :=
  match documents results with
  | [] | [] :: _ => Ok []
  | docs :: _ =>
      match metadatas results, distances results with
      | mds :: _, dists :: _ =>
          Ok ((λ r, SearchHit r.1.1 r.1.2 r.2) <$> zip3 docs mds dists)
      | _, _ => Raise
      end
  end.

(** A result of [search_repo] as the triple the loop of [retrieve_context]
    takes from [zip]. *)
Definition hit_row {D} (h : search_hit D) : str * gmap str mval * D :=
  (hit_document h, hit_metadata h, hit_distance h).

Section WithQuery.
Context {D : Type}.
Variable sha256_hexdigest : str → str.
Variable query_collection :
  gmap str (entry (gmap str mval)) → str → Z → query_result D.

Definition search_repo (query repo_url : str) (k : Z)
    (collection_name : option str)
    (client : gmap str (gmap str (entry (gmap str mval))))
    : result (list (search_hit D)) *
      gmap str (gmap str (entry (gmap str mval))) :=
  let name :=
    Indexer.resolve_collection_name sha256_hexdigest repo_url
      collection_name in
  let '(client, collection) := get_or_create_collection name client in
  let results := query_collection collection query k in
  (format_results results, client).
End WithQuery.

End RetrievalSearch.

(** ** Concrete inputs used in the statements below *)

Module Samples.
Import Py Chunker.

(** Twenty characters with a newline at index 6. *)
Definition looping_text : str :=
  lit "aaaaaa" ++ [newline] ++ lit "aaaaaaaaaaaaa".

(** A heading, a run of blanks as long as two windows, and a body. *)
Definition blank_run_text : str :=
  lit "Title" ++ replicate 25 space ++ lit "Body".

(** Two words whose separating blanks fall on the overlap of the first
    two windows of [chunk_text(text, 10, 2)]. *)
Definition two_words_text : str := lit "aaaaaaaa  bbbbbbbbbbbb".

(** A commit with a message and neither files nor diff text. *)
Definition bare_commit : commit :=
  {| hash := lit "3f2a9c1d7b604e58a1c2d3e4f5a6b7c8d9e0f1a2";
     message := lit "Initial commit";
     author := Some (lit "dev");
     date := Some (lit "2025-01-01T00:00:00");
     files := None;
     diff := Some [] |}.

(** A query result of six one-character documentation chunks of the
    file [a], with their distances in thousandths. *)
Definition six_results : Retrieval.query_result Z :=
  let md : gmap str mval :=
    <[lit "type" := MStr (lit "doc")]> (<[lit "path" := MStr (lit "a")]> ∅) in
  Retrieval.QueryResult
    [replicate 6 (lit "x")] [replicate 6 md] [[101; 102; 103; 104; 105; 106]].

(** A query result of one documentation chunk of 22 characters. *)
Definition one_result : Retrieval.query_result Z :=
  let md : gmap str mval :=
    <[lit "type" := MStr (lit "doc")]>
    (<[lit "path" := MStr (lit "README.md")]> ∅) in
  Retrieval.QueryResult [[two_words_text]] [[md]] [[250]].

(** Stand-ins for the libraries: a digest that returns its input, and a
    JSON printer and reader that know one document. *)
Definition sample_digest (s : str) : str := s.
Definition sample_payload : gmap str Cache.json :=
  {[ lit "market_size" := Cache.JStr (lit "4.2B") ]}.
Definition sample_dumps (v : Cache.json) : str := lit "market_size: 4.2B".
Definition sample_loads (s : str) : option Cache.json :=
  if decide (s = lit "market_size: 4.2B")
  then Some (Cache.JObj sample_payload) else None.

(** A cache that holds one entry, which expired at time 10. *)
Definition stale_entry : Chroma.entry Cache.cache_meta :=
  Chroma.Entry (lit "market_size: 4.2B")
    {| Cache.project_description := lit "CLI for Go";
       Cache.tech_stack := lit "Python";
       Cache.target_audience := lit "investors";
       Cache.cached_at := 10 - Cache.days 7;
       Cache.expires_at := 10 |}.
Definition stale_client : gmap str (gmap str (Chroma.entry Cache.cache_meta)) :=
  {[ Cache.cache_name :=
       {[ Cache.get_cache_key sample_digest (lit "CLI for Go")
            (lit "Python") (lit "investors") := stale_entry ]} ]}.

(** A short README, its single chunk, and a document of blanks. *)
Definition readme_doc : doc :=
  {| path := lit "README.md"; content := lit "A CLI tool for Go projects." |}.
Definition readme_chunk : chunk :=
  doc_chunk (lit "README.md") 1 0 (lit "A CLI tool for Go projects.").
Definition blank_doc : doc :=
  {| path := lit "NOTES.md"; content := replicate 3 space ++ [newline] |}.

(** A commit that touches one file, and its single chunk. *)
Definition patch_commit : commit :=
  {| hash := lit "abc123"; message := lit "Fix parser";
     author := Some (lit "Ann"); date := Some (lit "2024-01-01");
     files := Some [lit "parser.py"];
     diff := Some (lit "diff --git a/parser.py b/parser.py") |}.
Definition patch_chunk : chunk :=
  {| id := lit "commit:abc123:0";
     text := lit "Commit: Fix parser" ++ [newline] ++
             lit "File: parser.py" ++ [newline] ++
             lit "Author: Ann" ++ [newline] ++
             lit "Date: 2024-01-01" ++ [newline; newline] ++
             lit "Diff:" ++ [newline] ++ lit "parser.py b/parser.py";
     metadata :=
       commit_metadata (lit "abc123") (lit "Fix parser") (lit "Ann")
         (lit "2024-01-01") (MStr (lit "parser.py")) |}.

(** A repository with that README and that commit. *)
Definition small_repo : Indexer.repo_data :=
  {| Indexer.documentation := Some [readme_doc];
     Indexer.commits := Some [patch_commit] |}.

(** The six results of [six_results] as the loop of [retrieve_context]
    sees them, and the block it makes of each. *)
Definition six_rows : list (str * gmap str mval * Z) :=
  Retrieval.zip3 (replicate 6 (lit "x"))
    (replicate 6 (<[lit "type" := MStr (lit "doc")]>
                  (<[lit "path" := MStr (lit "a")]> ∅)))
    [101; 102; 103; 104; 105; 106].
Definition six_block : str :=
  lit "[Documentation: a]" ++ [newline] ++ lit "x" ++ [newline].

(** A repository whose documentation lists the README twice. *)
Definition repeated_repo : Indexer.repo_data :=
  {| Indexer.documentation := Some [readme_doc; readme_doc];
     Indexer.commits := None |}.

End Samples.

(** * Properties *)

(** ** Python strings *)

Module PyFacts.
Import Py.

Lemma clamp_range n i : 0 ≤ n → 0 ≤ clamp n i ≤ n.
Proof. unfold clamp. destruct (Z.ltb_spec i 0); lia. Qed.

Lemma clamp_id n i : 0 ≤ i ≤ n → clamp n i = i.
Proof. unfold clamp. destruct (Z.ltb_spec i 0); lia. Qed.

Lemma clamp_nonneg n i : 0 ≤ i → clamp n i = Z.min i n.
Proof. unfold clamp. destruct (Z.ltb_spec i 0); lia. Qed.

Lemma len_nonneg s : 0 ≤ len s.
Proof. unfold len. lia. Qed.

Lemma length_slice {A} (s : list A) i j :
  Z.of_nat (length (slice s i j)) =
  Z.max 0 (clamp (Z.of_nat (length s)) j - clamp (Z.of_nat (length s)) i).
Proof.
  unfold slice. rewrite length_take, length_drop.
  pose proof (clamp_range (Z.of_nat (length s)) i).
  pose proof (clamp_range (Z.of_nat (length s)) j). lia.
Qed.

(** A slice between ordered bounds is no longer than their distance. *)
Lemma length_slice_le {A} (s : list A) i j :
  i ≤ j → Z.of_nat (length (slice s i j)) ≤ j - i.
Proof.
  intros Hij. rewrite length_slice. unfold clamp.
  destruct (Z.ltb_spec i 0), (Z.ltb_spec j 0); lia.
Qed.

Lemma slice_app {A} (s : list A) a b c :
  0 ≤ a ≤ b → b ≤ c → slice s a c = slice s a b ++ slice s b c.
Proof.
  intros Hab Hbc. unfold slice.
  set (n := Z.of_nat (length s)).
  rewrite !(clamp_nonneg n) by lia.
  replace (Z.to_nat (Z.min c n - Z.min a n))
    with (Z.to_nat (Z.min b n - Z.min a n) +
          Z.to_nat (Z.min c n - Z.min b n))%nat by lia.
  rewrite <- take_take_drop, drop_drop. do 3 f_equal. lia.
Qed.

Lemma last_index_lt c l i : last_index c l = Some i → (i < length l)%nat.
Proof.
  revert i. induction l as [|x l IH]; intros i; simpl; [done|].
  destruct (last_index c l) as [k|].
  - intros [= <-]. specialize (IH k eq_refl). lia.
  - case_decide; [|done]. intros [= <-]. lia.
Qed.

Lemma last_index_lookup c l i : last_index c l = Some i → l !! i = Some c.
Proof.
  revert i. induction l as [|x l IH]; intros i; simpl; [done|].
  destruct (last_index c l) as [k|].
  - intros [= <-]. by apply IH.
  - case_decide; [|done]. intros [= <-]. by subst.
Qed.

(** [rfind] fails with -1 or answers inside the normalised range. *)
Lemma rfind_range c s i j :
  rfind c s i j = -1 ∨
  (clamp (len s) i ≤ rfind c s i j < clamp (len s) j).
Proof.
  unfold rfind.
  destruct (last_index c (slice s i j)) as [k|] eqn:Hk; [right|by left].
  apply last_index_lt in Hk.
  pose proof (length_slice s i j) as Hl. unfold len. lia.
Qed.

Lemma length_lstrip s : (length (lstrip s) ≤ length s)%nat.
Proof.
  induction s as [|c s IH]; simpl; [done|].
  destruct (isspace c); simpl; lia.
Qed.

Lemma length_strip s : (length (strip s) ≤ length s)%nat.
Proof.
  unfold strip, rstrip. rewrite length_reverse.
  etrans; [apply length_lstrip|]. rewrite length_reverse.
  apply length_lstrip.
Qed.

Lemma len_strip s : len (strip s) ≤ len s.
Proof. unfold len. pose proof (length_strip s). lia. Qed.

End PyFacts.

(** ** chunk_text *)

Module ChunkerFacts.
Import Py PyFacts Chunker Samples.

Lemma chunk_loop_unfold fuel text cs ov start chunks :
  chunk_loop (S fuel) text cs ov start chunks =
  if start <? len text then
    chunk_loop fuel text cs ov
      (next_start text ov (window_end text cs start))
      (chunks ++ [strip (slice text start (window_end text cs start))])
  else Some chunks.
Proof. reflexivity. Qed.

Lemma chunk_loop_done fuel text cs ov start chunks :
  len text ≤ start → chunk_loop fuel text cs ov start chunks = Some chunks.
Proof.
  intros H. destruct fuel; simpl;
    destruct (Z.ltb_spec start (len text)); (lia || done).
Qed.

(** Where a window ends: at the hard boundary, or just after a separator
    found past the midpoint and inside the normalised window, or at 0
    when [start] is so far below 0 that the -1 of a failed [rfind] lies
    past the midpoint. *)
Lemma window_end_spec text cs start :
  let e := window_end text cs start in
  e = start + cs ∨
  (start + cs < len text ∧ start + cs / 2 + 1 < e ∧
   clamp (len text) start < e ≤ clamp (len text) (start + cs)) ∨
  (start + cs < len text ∧ start + cs / 2 < -1 ∧ e = 0).
Proof.
  unfold window_end.
  destruct (Z.ltb_spec (start + cs) (len text)) as [Hlt|]; [|by left].
  destruct (Z.gtb_spec (rfind newline text start (start + cs))
              (start + cs / 2)) as [Hn|_].
  { right. destruct (rfind_range newline text start (start + cs)); lia. }
  destruct (Z.gtb_spec (rfind space text start (start + cs))
              (start + cs / 2)) as [Hs|_]; [|by left].
  right. destruct (rfind_range space text start (start + cs)); lia.
Qed.

(** The untrimmed window is never longer than [chunk_size]. *)
Lemma window_length text cs start :
  0 ≤ cs → len (slice text start (window_end text cs start)) ≤ cs.
Proof.
  intros Hcs.
  destruct (window_end_spec text cs start)
    as [->|[(Hlt & Hmid & Hlo & Hhi)|(Hlt & Hneg & ->)]].
  - pose proof (length_slice_le text start (start + cs)). unfold len. lia.
  - unfold len in *. rewrite length_slice.
    set (n := Z.of_nat (length text)) in *.
    set (e := window_end text cs start) in *.
    pose proof (clamp_range n start). pose proof (clamp_range n (start + cs)).
    rewrite (clamp_id n e) by lia.
    revert Hlo Hhi. unfold clamp.
    destruct (Z.ltb_spec start 0), (Z.ltb_spec (start + cs) 0); lia.
  - unfold len. rewrite length_slice.
    pose proof (clamp_range (Z.of_nat (length text)) start).
    rewrite (clamp_id _ 0) by lia. lia.
Qed.

(** With [overlap < chunk_size] and [overlap <= chunk_size // 2 + 1] an
    iteration that does not finish the text moves [start] forward. *)
Lemma next_start_progress text cs ov start :
  ov < cs → ov ≤ cs / 2 + 1 →
  let s' := next_start text ov (window_end text cs start) in
  start < s' ∨ len text ≤ s'.
Proof.
  intros Hov Hhalf. unfold next_start.
  destruct (Z.ltb_spec (window_end text cs start) (len text)); [left|by right].
  destruct (window_end_spec text cs start) as [->|[(_ & ? & _)|(_ & ? & ->)]];
    lia.
Qed.

Lemma chunk_loop_terminates text cs ov :
  ov < cs → ov ≤ cs / 2 + 1 →
  ∀ fuel start chunks,
    len text - start ≤ Z.of_nat fuel →
    is_Some (chunk_loop fuel text cs ov start chunks).
Proof.
  intros Hov Hhalf. induction fuel as [|fuel IH]; intros start chunks Hfuel.
  - rewrite chunk_loop_done by lia. eauto.
  - rewrite chunk_loop_unfold.
    destruct (Z.ltb_spec start (len text)); [|eauto].
    destruct (next_start_progress text cs ov start Hov Hhalf).
    + apply IH. lia.
    + rewrite chunk_loop_done by lia. eauto.
Qed.

Lemma chunk_loop_fuel_mono text cs ov fuel fuel' start chunks r :
  chunk_loop fuel text cs ov start chunks = Some r → (fuel ≤ fuel')%nat →
  chunk_loop fuel' text cs ov start chunks = Some r.
Proof.
  revert fuel' start chunks.
  induction fuel as [|fuel IH]; intros fuel' start chunks Hr Hle.
  - simpl in Hr. destruct (Z.ltb_spec start (len text)); [done|].
    by rewrite chunk_loop_done.
  - destruct fuel' as [|fuel']; [lia|].
    rewrite chunk_loop_unfold in *.
    destruct (start <? len text); [|done]. apply IH; [done|lia].
Qed.

Lemma chunk_loop_bound text cs ov :
  0 ≤ cs →
  ∀ fuel start chunks r,
    chunk_loop fuel text cs ov start chunks = Some r →
    Forall (λ c, len c ≤ cs) chunks → Forall (λ c, len c ≤ cs) r.
Proof.
  intros Hcs. induction fuel as [|fuel IH]; intros start chunks r Hr Hall.
  - simpl in Hr. destruct (start <? len text); by simplify_eq.
  - rewrite chunk_loop_unfold in Hr.
    destruct (start <? len text); [|by simplify_eq].
    apply IH in Hr; [done|].
    apply Forall_app; split; [done|]. apply Forall_singleton.
    etrans; [apply len_strip|]. by apply window_length.
Qed.

(** [chunk_text] returns for every text when [overlap < chunk_size] and
    [overlap <= chunk_size // 2 + 1]; one iteration per character is
    enough. *)
Lemma chunk_text_terminates text cs ov :
  ov < cs → ov ≤ cs / 2 + 1 →
  is_Some (chunk_text (length text) text cs ov).
Proof.
  intros Hov Hhalf. unfold chunk_text.
  destruct (len text <=? cs); [eauto|].
  apply chunk_loop_terminates; [done..|]. unfold len. lia.
Qed.

Lemma chunk_text_1500_200 text :
  is_Some (chunk_text (length text) text 1500 200).
Proof. apply chunk_text_terminates; [lia|]. by vm_compute. Qed.

Lemma looping_text_cycle fuel : ∀ start chunks,
  start = 0 ∨ start = -2 ∨ start = -1 →
  chunk_loop fuel looping_text 10 9 start chunks = None.
Proof.
  induction fuel as [|fuel IH]; intros start chunks Hs.
  - by destruct Hs as [->|[->| ->]].
  - rewrite chunk_loop_unfold.
    destruct Hs as [->|[->| ->]].
    + change (0 <? len looping_text) with true. cbv iota.
      apply IH. right; left. by vm_compute.
    + change (-2 <? len looping_text) with true. cbv iota.
      apply IH. right; right. by vm_compute.
    + change (-1 <? len looping_text) with true. cbv iota.
      apply IH. left. by vm_compute.
Qed.

(** C4 (failing input): with [chunk_size = 10] and [overlap = 9], which
    satisfy [overlap < chunk_size], the loop of [chunk_text] on a
    20-character text with a newline at index 6 does not advance
    [start]: it goes 0, -2, -1, 0, ... and no number of iterations
    finishes the call. *)
Theorem chunk_text_does_not_terminate :
  len looping_text = 20 ∧ 9 < 10 ∧
  next_start looping_text 9 (window_end looping_text 10 0) = -2 ∧
  next_start looping_text 9 (window_end looping_text 10 (-2)) = -1 ∧
  next_start looping_text 9 (window_end looping_text 10 (-1)) = 0 ∧
  ∀ fuel, chunk_text fuel looping_text 10 9 = None.
Proof.
  split_and!; [by vm_compute| lia | by vm_compute.. |].
  intros fuel. unfold chunk_text.
  change (len looping_text <=? 10) with false. cbv iota.
  apply looping_text_cycle. by left.
Qed.

(** C7 (as stated, refuted): chunks can be the empty string.  An empty
    text is returned as its own single chunk; and with [chunk_size = 10]
    and [overlap = 3] the windows that fall inside a run of blanks yield
    empty chunks. *)
Lemma chunk_text_empty_chunk :
  3 < 10 ∧
  chunk_text 0 [] 10 3 = Some [[]] ∧
  chunk_text 34 blank_run_text 10 3 =
    Some [lit "Title"; []; []; []; lit "Body"] ∧
  strip [] = [].
Proof. split_and!; [lia | by vm_compute..]. Qed.

(** C7 (amended): for [chunk_size >= 0], every chunk a call of
    [chunk_text] returns, the last one included, has at most
    [chunk_size] characters, with no slack; and the call returns for
    every text when [overlap < chunk_size] and
    [overlap <= chunk_size // 2 + 1].  That a chunk is not empty is not
    part of it. *)
Theorem chunk_text_size_bound text cs ov :
  0 ≤ cs →
  (∀ fuel chunks,
     chunk_text fuel text cs ov = Some chunks →
     Forall (λ c, len c ≤ cs) chunks) ∧
  (ov < cs → ov ≤ cs / 2 + 1 →
   ∃ chunks, chunk_text (length text) text cs ov = Some chunks ∧
             Forall (λ c, len c ≤ cs) chunks).
Proof.
  intros Hcs.
  assert (∀ fuel chunks, chunk_text fuel text cs ov = Some chunks →
            Forall (λ c, len c ≤ cs) chunks) as Hbound.
  { intros fuel chunks. unfold chunk_text.
    destruct (Z.leb_spec (len text) cs).
    - intros [= <-]. by apply Forall_singleton.
    - intros Hr. by apply (chunk_loop_bound text cs ov Hcs) in Hr. }
  split; [done|]. intros Hov Hhalf.
  destruct (chunk_text_terminates text cs ov Hov Hhalf) as [chunks Hr].
  exists chunks. eauto.
Qed.

Lemma chunk_text_size_bound_witness :
  0 ≤ 10 ∧
  ∃ chunks, chunk_text (length two_words_text) two_words_text 10 2
              = Some chunks ∧ Forall (λ c, len c ≤ 10) chunks.
Proof.
  split; [lia|].
  apply (chunk_text_size_bound two_words_text 10 2); [lia | lia |].
  by vm_compute.
Defined.

(** *** Windows and overlap *)

Lemma window_loop_unfold fuel text cs ov start ws :
  window_loop (S fuel) text cs ov start ws =
  if start <? len text then
    window_loop fuel text cs ov
      (next_start text ov (window_end text cs start))
      (ws ++ [(start, window_end text cs start)])
  else Some ws.
Proof. reflexivity. Qed.

(** The chunks are the trimmed windows. *)
Lemma chunk_loop_windows text cs ov fuel : ∀ start (ws : list (Z * Z)),
  chunk_loop fuel text cs ov start (chunk_of_window text <$> ws) =
  (λ r : list (Z * Z), chunk_of_window text <$> r) <$>
    window_loop fuel text cs ov start ws.
Proof.
  induction fuel as [|fuel IH]; intros start ws.
  - simpl. by destruct (start <? len text).
  - rewrite chunk_loop_unfold, window_loop_unfold.
    destruct (start <? len text); [|done].
    rewrite <- IH. by rewrite fmap_app.
Qed.

Lemma window_loop_acc text cs ov fuel : ∀ start (ws : list (Z * Z)),
  window_loop fuel text cs ov start ws =
  (λ l, ws ++ l) <$> window_loop fuel text cs ov start [].
Proof.
  induction fuel as [|fuel IH]; intros start ws.
  - simpl. destruct (start <? len text); [done|].
    simpl. by rewrite app_nil_r.
  - rewrite !window_loop_unfold.
    destruct (start <? len text); [|simpl; by rewrite app_nil_r].
    rewrite (IH _ (ws ++ _)), (IH _ ([] ++ _)).
    destruct (window_loop fuel text cs ov _ []); simpl; [|done].
    by rewrite <- app_assoc.
Qed.

Lemma window_loop_cons text cs ov fuel start :
  window_loop (S fuel) text cs ov start [] =
  if start <? len text then
    (λ l, (start, window_end text cs start) :: l) <$>
      window_loop fuel text cs ov
        (next_start text ov (window_end text cs start)) []
  else Some [].
Proof.
  rewrite window_loop_unfold. destruct (start <? len text); [|done].
  by rewrite window_loop_acc.
Qed.

Lemma window_loop_head text cs ov fuel start l w :
  window_loop fuel text cs ov start [] = Some l → l !! 0%nat = Some w →
  start < len text ∧ w = (start, window_end text cs start).
Proof.
  destruct fuel as [|fuel].
  - simpl. destruct (start <? len text); [done|]. by intros [= <-].
  - rewrite window_loop_cons.
    destruct (Z.ltb_spec start (len text)); [|by intros [= <-]].
    destruct (window_loop fuel text cs ov _ []); simpl; [|done].
    intros [= <-] [= <-]. done.
Qed.

Lemma window_end_after text cs ov start :
  0 ≤ ov → ov < cs → ov ≤ cs / 2 + 1 → 0 ≤ start →
  start + ov < window_end text cs start.
Proof.
  intros ? ? ? ?.
  destruct (window_end_spec text cs start)
    as [->|[(_ & ? & _)|(_ & ? & _)]]; [lia..|].
  assert (0 ≤ cs / 2) by (apply Z.div_pos; lia). lia.
Qed.

Lemma window_loop_adjacent text cs ov :
  0 ≤ ov → ov < cs → ov ≤ cs / 2 + 1 →
  ∀ fuel start l i w1 w2,
    0 ≤ start →
    window_loop fuel text cs ov start [] = Some l →
    l !! i = Some w1 → l !! S i = Some w2 →
    adjacent text ov w1 w2.
Proof.
  intros Hov0 Hov Hhalf.
  induction fuel as [|fuel IH]; intros start l i w1 w2 Hstart Hl H1 H2.
  { simpl in Hl. destruct (start <? len text); [done|]. by simplify_eq. }
  rewrite window_loop_cons in Hl.
  destruct (Z.ltb_spec start (len text)) as [Hlt|]; [|by simplify_eq].
  set (e := window_end text cs start) in *.
  destruct (window_loop fuel text cs ov (next_start text ov e) [])
    as [l'|] eqn:Hl'; simpl in Hl; [|done].
  injection Hl as <-.
  pose proof (window_end_after text cs ov start Hov0 Hov Hhalf Hstart) as He.
  fold e in He.
  destruct i as [|i]; simpl in H1, H2.
  - injection H1 as <-.
    destruct (window_loop_head _ _ _ _ _ _ _ Hl' H2) as [Hs2 ->].
    revert Hs2. unfold next_start.
    destruct (Z.ltb_spec e (len text)); [|lia]. intros Hs2.
    pose proof (window_end_after text cs ov (e - ov) Hov0 Hov Hhalf).
    unfold adjacent; simpl. lia.
  - apply (IH (next_start text ov e) l' i); [|done..].
    unfold next_start. destruct (e <? len text); lia.
Qed.

(** The last [ov] characters of a window are the first [ov] characters
    of the next one. *)
Lemma adjacent_shared text ov w1 w2 :
  0 ≤ ov → adjacent text ov w1 w2 →
  let shared := slice text (w1.2 - ov) w1.2 in
  len shared = ov ∧
  shared `suffix_of` slice text w1.1 w1.2 ∧
  shared `prefix_of` slice text w2.1 w2.2.
Proof.
  intros Hov (H21 & H0 & H12 & Hn & He). simpl. split_and!.
  - unfold len in *. rewrite length_slice, !clamp_id by lia. lia.
  - exists (slice text w1.1 (w1.2 - ov)). apply slice_app; lia.
  - exists (slice text w1.2 w2.2). rewrite H21. apply slice_app; lia.
Qed.

(** C8 (as stated, refuted): with [chunk_size = 10] and [overlap = 2]
    on a 22-character text, the first two chunks are eight [a]s and
    eight [b]s: no non-empty tail of the first is a head of the second,
    because the two overlapping characters were blanks and both chunks
    are trimmed. *)
Lemma adjacent_chunks_share_nothing :
  0 < 2 ∧ 2 < 10 ∧ 10 < len two_words_text ∧
  chunk_text 22 two_words_text 10 2 =
    Some [lit "aaaaaaaa"; lit "bbbbbbbb"; lit "bbbbbb"] ∧
  ∀ w, w `suffix_of` lit "aaaaaaaa" → w `prefix_of` lit "bbbbbbbb" →
       w = [].
Proof.
  split_and!; [lia | lia | by vm_compute | by vm_compute |].
  intros [|c w] [k Hk] [k' Hk']; [done|]. exfalso.
  assert (c ∈ lit "aaaaaaaa") as Ha.
  { rewrite Hk. apply elem_of_app. right. apply list_elem_of_here. }
  assert (Forall (λ x, x = "a"%char) (lit "aaaaaaaa")) as Hall
    by repeat constructor.
  rewrite Forall_forall in Hall. apply Hall in Ha.
  injection Hk' as Hc _. congruence.
Qed.

(** C8 (amended): for [0 < overlap < chunk_size],
    [overlap <= chunk_size // 2 + 1] and [len(text) > chunk_size], the
    call returns the trimmed contents of a sequence of windows in which
    each window starts [overlap] characters before the end of the one
    before: the last [overlap] characters of window i are the first
    [overlap] characters of window i+1.  The chunks are these windows
    trimmed, so what two chunks share is this overlap less the
    whitespace trimmed off at the cut. *)
Theorem window_overlap text cs ov :
  0 < ov → ov < cs → ov ≤ cs / 2 + 1 → cs < len text →
  ∃ ws : list (Z * Z),
    chunk_text (length text) text cs ov = Some (chunk_of_window text <$> ws) ∧
    ∀ i w1 w2, ws !! i = Some w1 → ws !! S i = Some w2 →
      w2.1 = w1.2 - ov ∧
      let shared := slice text (w1.2 - ov) w1.2 in
      len shared = ov ∧
      shared `suffix_of` slice text w1.1 w1.2 ∧
      shared `prefix_of` slice text w2.1 w2.2.
Proof.
  intros Hov0 Hov Hhalf Hlen. unfold chunk_text.
  destruct (Z.leb_spec (len text) cs); [lia|].
  pose proof (chunk_loop_windows text cs ov (length text) 0 []) as Hw.
  change (chunk_of_window text <$> []) with (@nil str) in Hw.
  destruct (chunk_loop_terminates text cs ov Hov Hhalf (length text) 0 [])
    as [chunks Hc]; [unfold len; lia|].
  rewrite Hc in Hw.
  destruct (window_loop (length text) text cs ov 0 []) as [ws|] eqn:Hws;
    [|done].
  simpl in Hw. exists ws. split; [by rewrite Hc, Hw|].
  intros i w1 w2 H1 H2.
  assert (adjacent text ov w1 w2) as Hadj.
  { eapply (window_loop_adjacent text cs ov); [lia|done|done| |done..]. lia. }
  split; [apply Hadj|]. apply adjacent_shared; [lia|done].
Qed.

Lemma window_overlap_witness :
  ∃ ws : list (Z * Z),
    chunk_text (length two_words_text) two_words_text 10 2
      = Some (chunk_of_window two_words_text <$> ws) ∧
    ∀ i w1 w2, ws !! i = Some w1 → ws !! S i = Some w2 →
      w2.1 = w1.2 - 2 ∧
      let shared := slice two_words_text (w1.2 - 2) w1.2 in
      len shared = 2 ∧
      shared `suffix_of` slice two_words_text w1.1 w1.2 ∧
      shared `prefix_of` slice two_words_text w2.1 w2.2.
Proof.
  apply (window_overlap two_words_text 10 2); [lia | lia | | ];
    by vm_compute.
Defined.

End ChunkerFacts.

(** ** chunk_commits and index_repo *)

Module IndexerFacts.
Import Py PyFacts Chunker ChunkerFacts Chroma Indexer Samples.

Lemma slice_nil {A} i j : slice (@nil A) i j = [].
Proof. unfold slice. by rewrite drop_nil, take_nil. Qed.

Lemma chunk_commits_app l1 l2 mf md :
  chunk_commits (l1 ++ l2) mf md =
  chunk_commits l1 mf md ++ chunk_commits l2 mf md.
Proof.
  induction l1 as [|c l1 IH]; simpl; [done|].
  by rewrite IH, app_assoc.
Qed.

(** C10: a commit whose [files] list is empty or absent and whose [diff]
    is empty or absent adds no chunk, whatever its message: the chunks
    of a history are those of the history without that commit. *)
Theorem chunk_commits_omits_bare_commit c before after mf md :
  default [] (files c) = [] → default [] (diff c) = [] →
  commit_chunks c mf md = [] ∧
  chunk_commits (before ++ c :: after) mf md =
  chunk_commits (before ++ after) mf md.
Proof.
  intros Hfiles Hdiff.
  assert (commit_chunks c mf md = []) as Hc.
  { unfold commit_chunks. rewrite Hfiles, Hdiff.
    rewrite !bool_decide_eq_true_2 by done. simpl.
    unfold slice_to. by rewrite slice_nil. }
  split; [done|].
  rewrite !chunk_commits_app. simpl. by rewrite Hc.
Qed.

Lemma chunk_commits_omits_bare_commit_witness :
  commit_chunks bare_commit 5 1000 = [] ∧
  chunk_commits ([] ++ bare_commit :: []) 5 1000 =
  chunk_commits ([] ++ []) 5 1000.
Proof.
  apply (chunk_commits_omits_bare_commit bare_commit [] [] 5 1000);
    reflexivity.
Defined.

Lemma chunk_documentation_total docs m :
  is_Some (chunk_documentation docs m).
Proof.
  induction docs as [|d docs [rest IH]]; simpl; [eauto|].
  case_decide; [eauto|].
  destruct (chunk_text_1500_200 (content d)) as [chunks ->]. simpl.
  rewrite IH. simpl. eauto.
Qed.

Section Add.
Context {M : Type}.
Implicit Types (col : gmap str (entry M)) (batch : list (str * entry M)).

Lemma foldl_add_one_present batch : ∀ col,
  Forall (λ r, is_Some (col !! r.1)) batch →
  foldl add_one col batch = col.
Proof.
  induction batch as [|r batch IH]; intros col Hall; simpl; [done|].
  apply Forall_cons in Hall as [[e He] Hall].
  unfold add_one at 2. rewrite He. by apply IH.
Qed.

Lemma add_one_keeps col r k :
  is_Some (col !! k) → is_Some (add_one col r !! k).
Proof.
  intros Hk. unfold add_one. destruct (col !! r.1) eqn:Hr; [done|].
  destruct (decide (r.1 = k)) as [Heq|Hne].
  - rewrite Heq in Hr. rewrite Hr in Hk. by destruct Hk.
  - by rewrite lookup_insert_ne.
Qed.

Lemma add_one_holds col r : is_Some (add_one col r !! r.1).
Proof.
  unfold add_one. destruct (col !! r.1) eqn:Hr; [by rewrite Hr|].
  rewrite lookup_insert_eq. eauto.
Qed.

Lemma foldl_add_one_keeps batch : ∀ col k,
  is_Some (col !! k) → is_Some (foldl add_one col batch !! k).
Proof.
  induction batch as [|r batch IH]; intros col k Hk; simpl; [done|].
  apply IH. by apply add_one_keeps.
Qed.

(** After the fold every id of the batch is in the collection. *)
Lemma foldl_add_one_holds batch : ∀ col,
  Forall (λ r, is_Some (foldl add_one col batch !! r.1)) batch.
Proof.
  induction batch as [|r batch IH]; intros col; simpl; [done|].
  apply Forall_cons. split; [|apply IH].
  apply foldl_add_one_keeps, add_one_holds.
Qed.

(** A batch that was added is, on a second [add], kept as it is or
    rejected; the collection is the same either way. *)
Lemma add_twice pol batch col col' :
  batch ≠ [] → add pol batch col = Ok col' →
  add KeepExisting batch col' = Ok col' ∧
  add RejectExisting batch col' = Raise.
Proof.
  intros Hne Hadd.
  assert (NoDup batch.*1 ∧ col' = foldl add_one col batch) as [Hnd ->].
  { unfold add in Hadd. case_bool_decide; [|done].
    destruct pol; [by simplify_eq|]. case_bool_decide; by simplify_eq. }
  pose proof (foldl_add_one_holds batch col) as Hall.
  unfold add. rewrite bool_decide_eq_true_2 by done. split.
  - by rewrite foldl_add_one_present.
  - rewrite bool_decide_eq_true_2; [done|].
    destruct batch as [|r batch]; [done|].
    apply Forall_cons in Hall as [Hr _]. by apply Exists_cons_hd.
Qed.
End Add.

Lemma get_or_create_collection_spec {M} (name : str)
    (client client' : gmap str (gmap str (entry M))) col :
  get_or_create_collection name client = (client', col) →
  client' !! name = Some col ∧
  get_or_create_collection name client' = (client', col).
Proof.
  unfold get_or_create_collection.
  destruct (client !! name) as [c|] eqn:Hc.
  - intros [= <- <-]. by rewrite Hc.
  - intros [= <- <-]. by rewrite lookup_insert_eq.
Qed.


End IndexerFacts.

(** ** retrieve_context *)

Module RetrievalFacts.
Import Py PyFacts Chunker Chroma Retrieval Samples.

Lemma len_app (s t : str) : len (s ++ t) = len s + len t.
Proof. unfold len. rewrite length_app. lia. Qed.

Lemma sum_len_app l1 l2 : sum_len (l1 ++ l2) = sum_len l1 + sum_len l2.
Proof. induction l1 as [|p l1 IH]; simpl; lia. Qed.

Lemma len_join sep parts :
  parts ≠ [] →
  len (join sep parts) =
  sum_len parts + len sep * (Z.of_nat (length parts) - 1).
Proof.
  induction parts as [|p [|q parts] IH]; intros Hne; [done| |].
  - simpl. lia.
  - change (join sep (p :: q :: parts))
      with (p ++ sep ++ join sep (q :: parts)).
    rewrite !len_app, IH by done.
    change (sum_len (p :: q :: parts))
      with (len p + sum_len (q :: parts)).
    rewrite !length_cons. lia.
Qed.

Lemma retrieve_context_eq {D} (sha256_hexdigest : str → str)
    (query_collection : gmap str (entry (gmap str mval)) → str → Z →
                        query_result D)
    (query repo_url : str) (k : Z) (collection_name : option str)
    (max_context_chars : Z)
    (client : gmap str (gmap str (entry (gmap str mval)))) :
  (retrieve_context sha256_hexdigest query_collection query repo_url k
     collection_name max_context_chars client).1 =
  assemble_context
    (query_collection
       (default ∅ (client !! Indexer.resolve_collection_name
                               sha256_hexdigest repo_url collection_name))
       query k)
    max_context_chars.
Proof.
  unfold retrieve_context, get_or_create_collection.
  by destruct (client !! _).
Qed.

(** The loop keeps [total_chars] equal to the characters of the blocks,
    and the last block is admitted while [total_chars] is within the
    budget: the blocks hold at most the budget, one header and two
    newlines. *)
Lemma assemble_budget {D} (H max : Z) : ∀ (rs : list (str * gmap str mval * D))
    parts total parts',
  0 ≤ H →
  Forall (λ r, ∀ h, header_of r.1.2 = Ok h → len h ≤ H) rs →
  assemble rs max parts total = Ok parts' →
  sum_len parts = total →
  (parts = [] ∨ total ≤ max + H + 2) →
  (parts' = [] ∨ sum_len parts' ≤ max + H + 2) ∧
  (length parts' ≤ length parts + length rs)%nat.
Proof.
  induction rs as [|[[doc md] d] rs IH];
    intros parts total parts' HH Hall Hr Hsum Hinv; simpl in Hr.
  - injection Hr as <-. split; [|lia]. destruct Hinv; [by left|right; lia].
  - destruct (Z.gtb_spec (total + len doc) max) as [Hgt|Hle].
    { injection Hr as <-. split; [|simpl; lia].
      destruct Hinv; [by left|right; lia]. }
    apply Forall_cons in Hall as [Hh Hall]. simpl in Hh.
    destruct (header_of md) as [h|] eqn:Hmd; [|done].
    specialize (Hh h eq_refl).
    apply IH in Hr; [|done|done| |].
    + destruct Hr as [Hr Hlen]. split; [done|].
      rewrite length_app in Hlen. simpl in *. lia.
    + rewrite sum_len_app. simpl. rewrite len_app.
      unfold len in *. simpl. rewrite length_app. simpl. lia.
    + right. lia.
Qed.

(** What the code does guarantee: the context is never longer than the
    budget plus one header, two newlines and one delimiter for each
    block after the first. *)
Lemma assemble_context_length {D} (results : query_result D) max H s
    docs mds dists :
  0 ≤ H →
  documents results = docs :: [] → metadatas results = mds :: [] →
  distances results = dists :: [] →
  Forall (λ md, ∀ h, header_of md = Ok h → len h ≤ H) mds →
  assemble_context results max = Ok s →
  s = no_results ∨ s = no_results_within_limits ∨
  len s ≤ max + H + 2 + len delimiter * (Z.of_nat (length docs) - 1).
Proof.
  intros HH Hd Hm Hdi Hall. unfold assemble_context.
  rewrite Hd, Hm, Hdi. destruct docs as [|doc docs]; [intros [= <-]; by left|].
  destruct (assemble (zip3 (doc :: docs) mds dists) max [] 0)
    as [parts|] eqn:Hr; [|done].
  eapply (assemble_budget H max) in Hr as [Hsum Hlen];
    [|done| |done|by left].
  2:{ unfold zip3. apply Forall_forall. intros [[x md] d] Hin h Hh.
      rewrite Forall_forall in Hall. eapply Hall; [|done].
      apply elem_of_zip_l, elem_of_zip_r in Hin. done. }
  destruct parts as [|p parts]; [intros [= <-]; right; by left|].
  intros Hs. right; right.
  assert (s = join delimiter (p :: parts)) as -> by congruence.
  rewrite len_join by done.
  destruct Hsum as [?|Hsum]; [done|].
  assert (length (p :: parts) ≤ length (doc :: docs))%nat.
  { etrans; [apply Hlen|]. unfold zip3. simpl length at 1.
    rewrite !length_zip_with. lia. }
  assert (0 ≤ len delimiter) by apply len_nonneg.
  nia.
Qed.

(** C5 (failing input): with a budget of 100 characters and six
    one-character chunks of the file [a], five blocks are admitted and
    the context has 129 characters, more than the budget, one header
    (18 characters) and one delimiter (6 characters) together: the four
    delimiters between the blocks are not counted by the loop. *)
Theorem context_exceeds_budget (sha256_hexdigest : str → str)
    (query repo_url : str)
    (client : gmap str (gmap str (entry (gmap str mval)))) :
  ∃ s,
    (retrieve_context sha256_hexdigest (λ _ _ _, six_results) query
       repo_url 15 None 100 client).1 = Ok s ∧
    header_of (<[lit "type" := MStr (lit "doc")]>
               (<[lit "path" := MStr (lit "a")]> ∅))
      = Ok (lit "[Documentation: a]") ∧
    len (lit "[Documentation: a]") = 18 ∧ len delimiter = 6 ∧
    len s = 129 ∧ 100 + 18 + 6 < len s.
Proof.
  rewrite retrieve_context_eq.
  exists (join delimiter
            (replicate 5 (lit "[Documentation: a]" ++ [newline] ++
                          lit "x" ++ [newline]))).
  split_and!; by vm_compute.
Qed.

(** C6: [retrieve_context] answers a query without results with one
    sentinel, and a query whose first result alone is larger than the
    budget, so that every result is excluded, with another; the two
    sentinels differ. *)
Theorem retrieve_context_sentinels {D} (sha256_hexdigest : str → str)
    (query_collection : gmap str (entry (gmap str mval)) → str → Z →
                        query_result D)
    (query repo_url : str) (k : Z) (collection_name : option str)
    (max_context_chars : Z)
    (client : gmap str (gmap str (entry (gmap str mval)))) :
  let results :=
    query_collection
      (default ∅ (client !! Indexer.resolve_collection_name
                              sha256_hexdigest repo_url collection_name))
      query k in
  let out :=
    (retrieve_context sha256_hexdigest query_collection query repo_url k
       collection_name max_context_chars client).1 in
  no_results ≠ no_results_within_limits ∧
  ((documents results = [] ∨ ∃ rest, documents results = [] :: rest) →
   out = Ok no_results) ∧
  (∀ doc docs rest md mds mrest d ds drest,
     documents results = (doc :: docs) :: rest →
     metadatas results = (md :: mds) :: mrest →
     distances results = (d :: ds) :: drest →
     max_context_chars < len doc →
     out = Ok no_results_within_limits).
Proof.
  intros results out. subst out. rewrite retrieve_context_eq. fold results.
  split_and!.
  - by vm_compute.
  - unfold assemble_context. intros [->|[rest ->]]; done.
  - intros doc docs rest md mds mrest d ds drest Hd Hm Hdi Hlt.
    unfold assemble_context. rewrite Hd, Hm, Hdi. simpl.
    destruct (Z.gtb_spec (0 + len doc) max_context_chars); [done|lia].
Qed.

Lemma retrieve_context_sentinels_witness :
  (retrieve_context (λ s, s) (λ _ _ _, one_result) (lit "what is it")
     (lit "https://github.com/o/r") 5 None 21 ∅).1
  = Ok no_results_within_limits.
Proof.
  eapply (retrieve_context_sentinels (λ s, s) (λ _ _ _, one_result));
    [reflexivity..|by vm_compute].
Defined.

End RetrievalFacts.

(** ** The market-analysis cache *)

Module CacheFacts.
Import Py PyFacts Chroma Cache Samples.

Section Store.
Context {M : Type}.
Implicit Types (col : gmap str (entry M)).

Lemma delete_ids_lookup ids col k :
  delete_ids ids col !! k = if decide (k ∈ ids) then None else col !! k.
Proof.
  unfold delete_ids. induction ids as [|i ids IH]; simpl.
  - done.
  - rewrite lookup_delete, IH.
    destruct (decide (i = k)) as [->|Hne].
    + by rewrite decide_True by apply list_elem_of_here.
    + destruct (decide (k ∈ ids)) as [Hin|Hout].
      * by rewrite decide_True by by apply list_elem_of_further.
      * rewrite decide_False; [done|].
        intros [?|?]%elem_of_cons; by simplify_eq.
Qed.

Lemma length_filter_map_to_list (P : str * entry M → Prop)
    `{!∀ x, Decision (P x)} col :
  length (filter P (map_to_list col)) = size (filter P col).
Proof.
  rewrite map_filter_alt. rewrite <- length_map_to_list.
  symmetry. apply Permutation_length, map_to_list_to_map.
  apply NoDup_fmap_fst.
  - intros k e1 e2 [_ H1%elem_of_map_to_list]%list_elem_of_filter
                    [_ H2%elem_of_map_to_list]%list_elem_of_filter.
    congruence.
  - apply NoDup_filter, NoDup_map_to_list.
Qed.
End Store.

Section WithLibraries.
Variable md5_hexdigest : str → str.
Variable dumps : json → str.
Variable loads : str → option json.
Variable isoformat : Z → str.
Variable pol : id_policy.
Implicit Types (client : gmap str (gmap str (entry cache_meta))).

Lemma init_market_cache_present client col :
  client !! cache_name = Some col →
  init_market_cache client = client ∧ cache_collection client = col.
Proof.
  intros Hc. unfold init_market_cache, cache_collection. by rewrite Hc.
Qed.

(** What [cache_market_analysis] leaves behind: the call returns, the
    entry of the key is the new one and every other entry is as it
    was. *)
Lemma cache_market_analysis_spec now1 now2 pd ts ta market_data ttl_days
    client :
  let key := get_cache_key md5_hexdigest pd ts ta in
  let e := Entry (dumps market_data)
             {| project_description := slice_to pd 500;
                tech_stack := slice_to ts 200;
                target_audience := ta;
                cached_at := now1;
                expires_at := now2 + days ttl_days |} in
  ∃ client',
    cache_market_analysis md5_hexdigest dumps pol now1 now2 pd ts ta
      market_data ttl_days client = Ok client' ∧
    client' !! cache_name =
      Some (<[key := e]> (cache_collection (init_market_cache client))).
Proof.
  intros key e. unfold cache_market_analysis. fold key. fold e.
  set (client0 := init_market_cache client).
  set (col := cache_collection client0).
  destruct (col !! key) as [old|] eqn:Hold.
  - eexists. split; [done|]. rewrite lookup_insert_eq.
    unfold update. by rewrite Hold.
  - unfold add. simpl.
    assert (add_one col (key, e) = <[key := e]> col) as Hadd.
    { unfold add_one. simpl. by rewrite Hold. }
    destruct pol.
    + eexists. split; [done|]. by rewrite lookup_insert_eq, Hadd.
    + rewrite bool_decide_eq_false_2.
      * eexists. split; [done|]. by rewrite lookup_insert_eq, Hadd.
      * intros [Hex|Hex]%Exists_cons; simpl in Hex.
        -- rewrite Hold in Hex. by destruct Hex.
        -- by apply Exists_nil in Hex.
Qed.

(** [get_cached_market_analysis] never hands back a dict without the
    [_cache_info] key. *)
Lemma get_cached_market_analysis_has_cache_info now pd ts ta client m :
  (get_cached_market_analysis md5_hexdigest loads isoformat now pd ts ta
     client).1 = Some (JObj m) →
  is_Some (m !! lit "_cache_info").
Proof.
  unfold get_cached_market_analysis.
  destruct (cache_collection (init_market_cache client) !! _) as [e|];
    [|done].
  destruct (now >? expires_at (meta e)); [done|].
  destruct (loads (document e)) as [[]|]; simpl; try done.
  intros [= <-]. rewrite lookup_insert_eq. eauto.
Qed.

(** A dict that is stored and read back before it expires comes back
    with the [_cache_info] key set, and the read changes nothing. *)
Lemma put_then_get now1 now2 now pd ts ta payload ttl_days client :
  loads (dumps (JObj payload)) = Some (JObj payload) →
  now ≤ now2 + days ttl_days →
  ∃ client',
    cache_market_analysis md5_hexdigest dumps pol now1 now2 pd ts ta
      (JObj payload) ttl_days client = Ok client' ∧
    get_cached_market_analysis md5_hexdigest loads isoformat now pd ts ta
      client' =
    (Some (JObj (<[lit "_cache_info" :=
             JObj (<[lit "cached_at" := JStr (isoformat now1)]>
                  (<[lit "expires_at" :=
                       JStr (isoformat (now2 + days ttl_days))]>
                  (<[lit "from_cache" := JBool true]> ∅)))]> payload)),
     client').
Proof.
  intros Hjson Hnow.
  destruct (cache_market_analysis_spec now1 now2 pd ts ta (JObj payload)
              ttl_days client) as (client' & Hput & Hcol).
  exists client'. split; [done|].
  unfold get_cached_market_analysis.
  destruct (init_market_cache_present _ _ Hcol) as [-> ->].
  rewrite lookup_insert_eq. simpl.
  destruct (Z.gtb_spec now (now2 + days ttl_days)); [lia|].
  by rewrite Hjson.
Qed.

(** An entry read after its [expires_at] is a miss and is deleted by
    the read. *)
Lemma get_expired now pd ts ta client e :
  cache_collection (init_market_cache client)
    !! get_cache_key md5_hexdigest pd ts ta = Some e →
  expires_at (meta e) < now →
  ∃ client',
    get_cached_market_analysis md5_hexdigest loads isoformat now pd ts ta
      client = (None, client') ∧
    cache_collection client' !! get_cache_key md5_hexdigest pd ts ta
      = None.
Proof.
  intros He Hexp. unfold get_cached_market_analysis. rewrite He.
  destruct (Z.gtb_spec now (expires_at (meta e))); [|lia].
  eexists. split; [done|].
  unfold cache_collection at 1. rewrite lookup_insert_eq. simpl.
  by rewrite lookup_delete_eq.
Qed.

(** The sweep deletes exactly the entries whose [expires_at] has
    passed, keeps the others and returns the number deleted. *)
Lemma clear_expired_cache_spec now client :
  let col := cache_collection (init_market_cache client) in
  let out := clear_expired_cache now client in
  out.1 = Z.of_nat (size (filter (λ r, expires_at (meta r.2) < now) col)) ∧
  ∀ k, cache_collection out.2 !! k =
       match col !! k with
       | Some e => if decide (expires_at (meta e) < now) then None
                   else Some e
       | None => None
       end.
Proof.
  intros col out. subst out. unfold clear_expired_cache. fold col.
  set (P := λ r : str * entry cache_meta, now > expires_at (meta r.2)).
  assert (∀ k, k ∈ (filter P (map_to_list col)).*1 ↔
               ∃ e, col !! k = Some e ∧ expires_at (meta e) < now) as Hin.
  { intros k. rewrite list_elem_of_fmap. split.
    - intros ([k' e] & -> & [HP Hm%elem_of_map_to_list]%list_elem_of_filter).
      exists e. split; [done|]. unfold P in HP. simpl in *. lia.
    - intros (e & He & Hexp). exists (k, e). split; [done|].
      apply list_elem_of_filter. split; [unfold P; simpl; lia|].
      by apply elem_of_map_to_list. }
  assert (size (filter (λ r, expires_at (meta r.2) < now) col)
          = length (filter P (map_to_list col))) as Hsize.
  { rewrite length_filter_map_to_list. f_equal.
    apply map_filter_ext. intros k e _. unfold P. simpl. lia. }
  case_decide as Hempty.
  - apply map_to_list_empty_iff in Hempty. simpl.
    rewrite Hempty at 1. rewrite map_filter_empty, map_size_empty.
    split; [done|]. intros k. fold col. rewrite Hempty.
    by rewrite lookup_empty.
  - simpl. rewrite length_fmap, Hsize. split; [done|]. intros k.
    case_decide as Hnone.
    + fold col. destruct (col !! k) as [e|] eqn:He; [|done].
      case_decide as Hexp; [|done].
      assert (k ∈ (filter P (map_to_list col)).*1) as Hk
        by (apply Hin; eauto).
      rewrite Hnone in Hk. by apply not_elem_of_nil in Hk.
    + unfold cache_collection at 1. rewrite lookup_insert_eq. simpl.
      rewrite delete_ids_lookup.
      destruct (col !! k) as [e|] eqn:He.
      * case_decide as Hk.
        -- apply Hin in Hk as (e' & He' & Hexp). simplify_eq.
           by rewrite decide_True.
        -- rewrite decide_False; [done|]. intros Hexp. apply Hk, Hin.
           eauto.
      * by case_decide.
Qed.

(** A read under a key other than the one just written finds what was
    there before the write. *)
Lemma put_then_get_other now1 now2 now pd ts ta pd' ts' ta' market_data
    ttl_days client client' :
  get_cache_key md5_hexdigest pd' ts' ta'
    ≠ get_cache_key md5_hexdigest pd ts ta →
  cache_collection (init_market_cache client)
    !! get_cache_key md5_hexdigest pd' ts' ta' = None →
  cache_market_analysis md5_hexdigest dumps pol now1 now2 pd ts ta
    market_data ttl_days client = Ok client' →
  (get_cached_market_analysis md5_hexdigest loads isoformat now
     pd' ts' ta' client').1 = None.
Proof.
  intros Hne Hnone Hput.
  destruct (cache_market_analysis_spec now1 now2 pd ts ta market_data
              ttl_days client) as (c & Hput' & Hcol).
  rewrite Hput in Hput'. injection Hput' as <-.
  unfold get_cached_market_analysis.
  destruct (init_market_cache_present _ _ Hcol) as [-> ->].
  by rewrite lookup_insert_ne, Hnone.
Qed.

(** The combined string determines the three parameters when the
    first two hold no [|]. *)
Lemma split_at_separator (c : ascii) (l1 l2 r1 r2 : str) :
  c ∉ l1 → c ∉ l2 → l1 ++ c :: r1 = l2 ++ c :: r2 → l1 = l2 ∧ r1 = r2.
Proof.
  revert l2. induction l1 as [|x l1 IH]; intros [|y l2] H1 H2 Heq;
    simpl in Heq.
  - by simplify_eq.
  - injection Heq as -> _. exfalso. apply H2, list_elem_of_here.
  - injection Heq as -> _. exfalso. apply H1, list_elem_of_here.
  - injection Heq as -> Heq.
    apply IH in Heq as [-> ->]; [done| |].
    + intros ?. by apply H1, list_elem_of_further.
    + intros ?. by apply H2, list_elem_of_further.
Qed.

Lemma combined_injective (pd ts ta pd' ts' ta' : str) :
  "|"%char ∉ pd → "|"%char ∉ ts → "|"%char ∉ pd' → "|"%char ∉ ts' →
  pd ++ lit "|" ++ ts ++ lit "|" ++ ta =
  pd' ++ lit "|" ++ ts' ++ lit "|" ++ ta' →
  (pd, ts, ta) = (pd', ts', ta').
Proof.
  intros H1 H2 H3 H4 Heq.
  apply (split_at_separator "|"%char) in Heq as [-> Heq]; [|done..].
  apply (split_at_separator "|"%char) in Heq as [-> ->]; done.
Qed.


(** C2 (failing input): the parameter tuples
    [("CLI for Go|Rust", "Python", "investors")] and
    [("CLI for Go", "Rust|Python", "investors")] differ, yet both
    combine to the same string and so to the same key, whatever the
    digest; an analysis cached under the first is returned for the
    second. *)
Theorem cache_key_separator_collision now1 now2 now payload ttl_days
    client :
  loads (dumps (JObj payload)) = Some (JObj payload) →
  now ≤ now2 + days ttl_days →
  (lit "CLI for Go|Rust", lit "Python", lit "investors")
    ≠ (lit "CLI for Go", lit "Rust|Python", lit "investors") ∧
  get_cache_key md5_hexdigest
    (lit "CLI for Go|Rust") (lit "Python") (lit "investors") =
  get_cache_key md5_hexdigest
    (lit "CLI for Go") (lit "Rust|Python") (lit "investors") ∧
  ∃ client' hit,
    cache_market_analysis md5_hexdigest dumps pol now1 now2
      (lit "CLI for Go|Rust") (lit "Python") (lit "investors")
      (JObj payload) ttl_days client = Ok client' ∧
    (get_cached_market_analysis md5_hexdigest loads isoformat now
       (lit "CLI for Go") (lit "Rust|Python") (lit "investors")
       client').1 = Some hit.
Proof.
  intros Hjson Hnow. split_and!; [done|done|].
  destruct (put_then_get now1 now2 now (lit "CLI for Go|Rust")
              (lit "Python") (lit "investors") payload ttl_days client
              Hjson Hnow) as (client' & Hput & Hget).
  eexists client', _. split; [done|].
  unfold get_cached_market_analysis in *.
  change (get_cache_key md5_hexdigest (lit "CLI for Go") (lit "Rust|Python")
            (lit "investors"))
    with (get_cache_key md5_hexdigest (lit "CLI for Go|Rust") (lit "Python")
            (lit "investors")).
  by rewrite Hget.
Qed.

(** C9: an entry whose [expires_at] lies before [now] is a miss for
    [get_cached_market_analysis], which deletes it; it is absent
    after [clear_expired_cache], which keeps the entries that have
    not expired and returns the number of entries whose [expires_at]
    had passed. *)
Theorem cache_expiry now client :
  let col := cache_collection (init_market_cache client) in
  let swept := clear_expired_cache now client in
  (∀ pd ts ta e,
     col !! get_cache_key md5_hexdigest pd ts ta = Some e →
     expires_at (meta e) < now →
     ∃ client',
       get_cached_market_analysis md5_hexdigest loads isoformat now
         pd ts ta client = (None, client') ∧
       cache_collection client' !! get_cache_key md5_hexdigest pd ts ta
         = None) ∧
  (∀ k e, col !! k = Some e → expires_at (meta e) < now →
          cache_collection swept.2 !! k = None) ∧
  (∀ k e, col !! k = Some e → ¬ expires_at (meta e) < now →
          cache_collection swept.2 !! k = Some e) ∧
  swept.1 =
    Z.of_nat (size (filter (λ r, expires_at (meta r.2) < now) col)).
Proof.
  intros col swept.
  destruct (clear_expired_cache_spec now client) as [Hcount Hswept].
  fold col in Hswept.
  split_and!; [|..|done].
  - intros pd ts ta e He Hexp. by apply (get_expired now pd ts ta client e).
  - intros k e He Hexp. subst swept. rewrite Hswept, He.
    by rewrite decide_True.
  - intros k e He Hexp. subst swept. rewrite Hswept, He.
    by rewrite decide_False.
Qed.

End WithLibraries.



Lemma cache_key_separator_collision_witness :
  ∃ client' hit,
    cache_market_analysis sample_digest sample_dumps KeepExisting 0 5
      (lit "CLI for Go|Rust") (lit "Python") (lit "investors")
      (JObj sample_payload) 7 ∅ = Ok client' ∧
    (get_cached_market_analysis sample_digest sample_loads str_of_int 60
       (lit "CLI for Go") (lit "Rust|Python") (lit "investors")
       client').1 = Some hit.
Proof.
  apply (cache_key_separator_collision sample_digest sample_dumps
           sample_loads str_of_int KeepExisting 0 5 60 sample_payload 7 ∅).
  - reflexivity.
  - by vm_compute.
Defined.

Lemma cache_expiry_witness :
  ∃ client',
    get_cached_market_analysis sample_digest sample_loads str_of_int 20
      (lit "CLI for Go") (lit "Python") (lit "investors") stale_client
      = (None, client') ∧
    cache_collection client'
      !! get_cache_key sample_digest (lit "CLI for Go") (lit "Python")
           (lit "investors") = None.
Proof.
  apply (cache_expiry sample_digest sample_loads str_of_int 20 stale_client)
    with (e := stale_entry).
  - by vm_compute.
  - by vm_compute.
Defined.

End CacheFacts.

(** ** More on the cache: statistics, sweeping, overwriting, framing *)

Module CacheMore.
Import Py PyFacts Chroma Cache CacheStats CacheFacts Samples.

Implicit Types (client : gmap str (gmap str (entry cache_meta))) (now : Z).

Lemma init_market_cache_holds client :
  init_market_cache client !! cache_name =
  Some (cache_collection (init_market_cache client)).
Proof.
  unfold cache_collection, init_market_cache.
  destruct (client !! cache_name) eqn:Hc.
  - by rewrite Hc.
  - by rewrite lookup_insert_eq.
Qed.

Lemma init_market_cache_idem client :
  init_market_cache (init_market_cache client) = init_market_cache client.
Proof.
  unfold init_market_cache at 1. by rewrite init_market_cache_holds.
Qed.

Lemma init_market_cache_other client name :
  name ≠ cache_name → init_market_cache client !! name = client !! name.
Proof.
  intros Hne. unfold init_market_cache.
  destruct (client !! cache_name); [done|]. by rewrite lookup_insert_ne.
Qed.

Lemma count_expired_filter now metadatas :
  count_expired now metadatas =
  Z.of_nat (length (filter (λ m, expires_at m < now) metadatas)).
Proof.
  unfold count_expired.
  cut (∀ acc, foldl (λ c m, if now >? expires_at m then c + 1 else c) acc
                metadatas
              = acc + Z.of_nat (length (filter (λ m, expires_at m < now)
                                          metadatas))).
  { intros H. by rewrite H. }
  induction metadatas as [|m ms IH]; intros acc; simpl; [lia|].
  rewrite IH, filter_cons.
  destruct (Z.gtb_spec now (expires_at m)); case_decide; simpl; lia.
Qed.

Lemma count_expired_collection now (col : gmap str (entry cache_meta)) :
  count_expired now (meta <$> (map_to_list col).*2) =
  Z.of_nat (size (filter (expired now) col)).
Proof.
  rewrite count_expired_filter, <- length_filter_map_to_list. f_equal.
  induction (map_to_list col) as [|[k e] l IH]; [done|].
  rewrite !fmap_cons, !filter_cons. simpl.
  unfold expired at 1. simpl.
  repeat case_decide; simpl; rewrite ?IH; done || lia.
Qed.

Lemma size_filter_split now (col : gmap str (entry cache_meta)) :
  size col =
  (size (filter (expired now) col) +
   size (filter (λ r, ¬ expired now r) col))%nat.
Proof.
  rewrite <- map_size_disj_union by apply map_disjoint_filter_complement.
  by rewrite map_filter_union_complement.
Qed.

(** [get_cache_stats], with its loop counted out. *)
Lemma get_cache_stats_eq now client :
  let col := cache_collection (init_market_cache client) in
  get_cache_stats now client =
  (CacheStats (Z.of_nat (size col))
     (Z.of_nat (size (filter (expired now) col)))
     (Z.of_nat (size col) - Z.of_nat (size (filter (expired now) col))),
   init_market_cache client).
Proof.
  intros col. unfold get_cache_stats. fold col.
  case_decide as Hempty.
  - apply map_to_list_empty_iff in Hempty. rewrite Hempty.
    by rewrite map_filter_empty, map_size_empty.
  - by rewrite count_expired_collection, length_map_to_list.
Qed.

(** X1: The statistics count the entries of the cache: [total_entries] is
    their number, [expired_entries] the number of those past their
    [expires_at], [valid_entries] the number of the others; an empty cache
    gives three zeros, and the call changes no entry. *)
Theorem get_cache_stats_counts now client :
  let col := cache_collection (init_market_cache client) in
  let out := get_cache_stats now client in
  total_entries out.1 = Z.of_nat (size col) ∧
  expired_entries out.1 = Z.of_nat (size (filter (expired now) col)) ∧
  valid_entries out.1 =
    Z.of_nat (size (filter (λ r, ¬ expired now r) col)) ∧
  (col = ∅ → out.1 = CacheStats 0 0 0) ∧
  out.2 = init_market_cache client.
Proof.
  intros col out. subst out. rewrite get_cache_stats_eq. fold col.
  cbn [fst snd total_entries expired_entries valid_entries].
  pose proof (size_filter_split now col) as Hsplit.
  split_and!; [done|done|lia| |done].
  intros ->. by rewrite map_filter_empty, map_size_empty.
Qed.

Lemma swept_collection now client :
  cache_collection (clear_expired_cache now client).2 =
  filter (λ r, ¬ expired now r) (cache_collection (init_market_cache client)).
Proof.
  destruct (clear_expired_cache_spec now client) as [_ Hswept].
  apply map_eq. intros k. rewrite Hswept. apply option_eq. intros e.
  rewrite map_lookup_filter_Some. unfold expired. simpl.
  destruct (cache_collection (init_market_cache client) !! k) as [e'|];
    [|intuition congruence].
  case_decide; intuition congruence.
Qed.

Lemma swept_client_init now client :
  init_market_cache (clear_expired_cache now client).2 =
  (clear_expired_cache now client).2.
Proof.
  unfold clear_expired_cache.
  case_decide; simpl; [apply init_market_cache_idem|].
  case_decide; simpl; [apply init_market_cache_idem|].
  unfold init_market_cache at 1. by rewrite lookup_insert_eq.
Qed.

Lemma filter_expired_of_valid now (col : gmap str (entry cache_meta)) :
  filter (expired now) (filter (λ r, ¬ expired now r) col) = ∅.
Proof.
  apply map_empty. intros k. apply map_lookup_filter_None. right.
  intros e [_ He]%map_lookup_filter_Some. tauto.
Qed.

(** X2: The sweep and the statistics agree: [clear_expired_cache] returns the
    [expired_entries] the statistics show at the same time, and the
    statistics taken after the sweep show no expired entry and the entries
    that were valid before. *)
Theorem clear_expired_cache_matches_stats now client :
  let stats := (get_cache_stats now client).1 in
  let swept := clear_expired_cache now client in
  swept.1 = expired_entries stats ∧
  (get_cache_stats now swept.2).1 =
    CacheStats (valid_entries stats) 0 (valid_entries stats).
Proof.
  intros stats swept.
  destruct (clear_expired_cache_spec now client) as [Hcount _].
  fold swept in Hcount. subst stats swept.
  rewrite !get_cache_stats_eq.
  rewrite swept_client_init, swept_collection.
  rewrite filter_expired_of_valid, map_size_empty.
  cbn [fst snd total_entries expired_entries valid_entries].
  split; [done|].
  pose proof (size_filter_split now
                (cache_collection (init_market_cache client))) as Hsplit.
  f_equal; lia.
Qed.

(** X3: A second sweep at the same time finds nothing to delete: it returns 0
    and leaves the cache as the first sweep left it. *)
Theorem clear_expired_cache_idempotent now client :
  let swept := clear_expired_cache now client in
  clear_expired_cache now swept.2 = (0, swept.2).
Proof.
  intros swept.
  destruct (clear_expired_cache_spec now swept.2) as [Hcount _].
  subst swept.
  rewrite swept_client_init, swept_collection in Hcount.
  assert (filter (λ r : str * entry cache_meta, expires_at (meta r.2) < now)
            (filter (λ r, ¬ expired now r)
               (cache_collection (init_market_cache client))) = ∅) as Hnone
    by apply filter_expired_of_valid.
  rewrite Hnone, map_size_empty in Hcount.
  destruct (clear_expired_cache now (clear_expired_cache now client).2)
    as [n c] eqn:Hsweep.
  simpl in Hcount. subst n. f_equal.
  revert Hsweep. unfold clear_expired_cache at 1.
  rewrite swept_client_init.
  case_decide; [by intros [= <-]|]. simpl.
  intros [= Hlen Hc]. apply Nat2Z.inj, nil_length_inv in Hlen.
  rewrite Hlen in Hc. by rewrite decide_True in Hc.
Qed.

Section WithLibraries.
Variable md5_hexdigest : str → str.
Variable dumps : json → str.
Variable loads : str → option json.
Variable isoformat : Z → str.
Variable pol : id_policy.

Lemma cache_market_analysis_result now1 now2 pd ts ta market_data ttl_days
    client :
  cache_market_analysis md5_hexdigest dumps pol now1 now2 pd ts ta
    market_data ttl_days client =
  Ok (<[cache_name :=
          <[get_cache_key md5_hexdigest pd ts ta :=
              written_entry dumps now1 now2 pd ts ta market_data ttl_days]>
            (cache_collection (init_market_cache client))]>
        (init_market_cache client)).
Proof.
  unfold cache_market_analysis, written_entry.
  set (key := get_cache_key md5_hexdigest pd ts ta).
  set (e := Entry _ _).
  set (client0 := init_market_cache client).
  set (col := cache_collection client0).
  destruct (col !! key) as [old|] eqn:Hold.
  - unfold update. by rewrite Hold.
  - unfold add. simpl.
    assert (add_one col (key, e) = <[key := e]> col) as Hadd.
    { unfold add_one. simpl. by rewrite Hold. }
    destruct pol; [by rewrite Hadd|].
    rewrite bool_decide_eq_false_2; [by rewrite Hadd|].
    intros [Hex|Hex]%Exists_cons; simpl in Hex.
    + rewrite Hold in Hex. by destruct Hex.
    + by apply Exists_nil in Hex.
Qed.

Lemma cache_collection_insert client (col : gmap str (entry cache_meta)) :
  cache_collection (<[cache_name := col]> client) = col.
Proof. unfold cache_collection. by rewrite lookup_insert_eq. Qed.

Lemma init_market_cache_insert client (col : gmap str (entry cache_meta)) :
  init_market_cache (<[cache_name := col]> client) =
  <[cache_name := col]> client.
Proof. unfold init_market_cache. by rewrite lookup_insert_eq. Qed.



(** X6: A read changes the cache only by deleting the entry it looked up, and
    only when that entry has expired; and it returns a value only for an
    unexpired entry whose document reads back as a dict, namely that dict
    with [_cache_info] set. *)
Theorem get_cached_market_analysis_frame now pd ts ta client :
  let key := get_cache_key md5_hexdigest pd ts ta in
  let col := cache_collection (init_market_cache client) in
  let out :=
    get_cached_market_analysis md5_hexdigest loads isoformat now pd ts ta
      client in
  (∀ name, name ≠ cache_name → out.2 !! name = client !! name) ∧
  (∀ k, k ≠ key → cache_collection out.2 !! k = col !! k) ∧
  (∀ e, col !! key = Some e → now ≤ expires_at (meta e) →
        cache_collection out.2 !! key = Some e) ∧
  (∀ v, out.1 = Some v →
        ∃ e m, col !! key = Some e ∧ now ≤ expires_at (meta e) ∧
               loads (document e) = Some (JObj m) ∧
               v = JObj (<[lit "_cache_info" :=
                             cache_info isoformat (meta e)]> m)).
Proof.
  intros key col out. subst out. unfold get_cached_market_analysis.
  fold key col.
  destruct (col !! key) as [e|] eqn:He; simpl.
  2:{ split_and!; [|done|done|done].
      intros name Hname. by apply init_market_cache_other. }
  destruct (Z.gtb_spec now (expires_at (meta e))) as [Hexp|Hok]; simpl.
  - split_and!.
    + intros name Hname.
      by rewrite lookup_insert_ne, init_market_cache_other.
    + intros k Hk. rewrite cache_collection_insert.
      unfold delete_ids. simpl. by rewrite lookup_delete_ne.
    + intros e' [= <-] Hle. lia.
    + done.
  - destruct (loads (document e)) as [[| | | | |m]|] eqn:Hl; simpl;
      (split_and!;
       [intros name Hname; by apply init_market_cache_other
       |done
       |intros e' [= <-] _; exact He
       |try done]).
    intros v [= <-]. exists e, m. done.
Qed.

End WithLibraries.


End CacheMore.

(** ** More on the chunker: caps, metadata, ids *)

Module ChunkerMore.
Import Py PyFacts Chunker ChunkerFacts ChunkIds Chroma Indexer IndexerFacts
  Samples.

Lemma lit_inj (s1 s2 : string) : lit s1 = lit s2 → s1 = s2.
Proof.
  intros H. apply (f_equal string_of_list_ascii) in H.
  unfold lit in H. by rewrite !string_of_list_ascii_of_string in H.
Qed.

Lemma pretty_N_go_no_colon (x : N) : ∀ s : string,
  ":"%char ∉ lit s → ":"%char ∉ lit (pretty_N_go x s).
Proof.
  induction (N.lt_wf_0 x) as [x _ IH]; intros s Hs.
  assert (x = 0 ∨ 0 < x)%N as [->|Hx] by lia.
  - by rewrite pretty_N_go_0.
  - rewrite pretty_N_go_step by done. apply IH.
    { by apply N.div_lt. }
    unfold lit. simpl. fold (lit s).
    intros [Hc|Hc]%elem_of_cons; [|done].
    revert Hc. unfold pretty_N_char. by repeat case_match.
Qed.

(** The decimal form of an index holds no colon. *)
Lemma str_of_int_no_colon (idx : nat) :
  ":"%char ∉ str_of_int (Z.of_nat idx).
Proof.
  unfold str_of_int, pretty, pretty_Z.
  destruct (Z.of_nat idx) as [|p|p] eqn:Hz; [| |lia].
  - intros Hc. vm_compute in Hc.
    apply elem_of_cons in Hc as [?|Hc]; [done|]. by apply not_elem_of_nil in Hc.
  - unfold pretty, pretty_positive, pretty, pretty_N.
    case_decide; [done|]. apply pretty_N_go_no_colon.
    apply not_elem_of_nil.
Qed.

Lemma str_of_int_inj (i j : Z) : str_of_int i = str_of_int j → i = j.
Proof. intros H%lit_inj. by apply (inj pretty) in H. Qed.

Lemma split_at_last_separator (c : ascii) (p1 p2 d1 d2 : str) :
  c ∉ d1 → c ∉ d2 → p1 ++ c :: d1 = p2 ++ c :: d2 → p1 = p2 ∧ d1 = d2.
Proof.
  intros H1 H2 Heq. apply (f_equal reverse) in Heq.
  rewrite !reverse_app, !reverse_cons, <- !app_assoc in Heq. simpl in Heq.
  apply CacheFacts.split_at_separator in Heq as [Hd Hp].
  - apply (inj reverse) in Hd, Hp. done.
  - by rewrite elem_of_reverse.
  - by rewrite elem_of_reverse.
Qed.

Lemma doc_id_inj p1 p2 i1 i2 :
  doc_id p1 i1 = doc_id p2 i2 → p1 = p2 ∧ i1 = i2.
Proof.
  unfold doc_id. intros Heq%app_inv_head.
  apply split_at_last_separator in Heq as [-> Hi];
    [|apply str_of_int_no_colon..].
  apply str_of_int_inj in Hi. split; [done|lia].
Qed.

Lemma commit_id_inj s1 s2 i1 i2 :
  commit_id s1 i1 = commit_id s2 i2 → s1 = s2 ∧ i1 = i2.
Proof.
  unfold commit_id. intros Heq%app_inv_head.
  apply split_at_last_separator in Heq as [-> Hi];
    [|apply str_of_int_no_colon..].
  apply str_of_int_inj in Hi. split; [done|lia].
Qed.

Lemma doc_id_ne_commit_id p i s j : doc_id p i ≠ commit_id s j.
Proof. unfold doc_id, commit_id. simpl. discriminate. Qed.

(** [chunk_documentation] returns, and its result is the chunks of each
    document in turn. *)
Lemma chunk_documentation_bind docs max :
  chunk_documentation docs max = Some (docs ≫= doc_part max).
Proof.
  induction docs as [|d docs IH]; [done|].
  simpl. unfold doc_part at 1. case_decide; [by rewrite IH|].
  unfold doc_chunks_of, doc_text_chunks.
  destruct (chunk_text_1500_200 (content d)) as [chunks ->]. simpl.
  by rewrite IH.
Qed.

Lemma chunk_commits_bind commits mf md :
  chunk_commits commits mf md = commits ≫= (λ c, commit_chunks c mf md).
Proof. induction commits as [|c commits IH]; [done|]. simpl. by rewrite IH. Qed.

Lemma length_slice_to {A} (l : list A) n :
  0 ≤ n → Z.of_nat (length (slice_to l n)) = Z.min (Z.of_nat (length l)) n.
Proof.
  intros Hn. unfold slice_to. rewrite length_slice.
  rewrite (clamp_id _ 0) by lia. rewrite clamp_nonneg by done. lia.
Qed.

Lemma slice_subseteq {A} (l : list A) i j : slice l i j ⊆ l.
Proof.
  unfold slice. intros x Hx.
  eapply subseteq_drop, subseteq_take, Hx.
Qed.

Lemma length_bind_le {A B} (f : A → list B) (l : list A) (m : nat) :
  (∀ x, x ∈ l → length (f x) ≤ m)%nat →
  (length (l ≫= f) ≤ m * length l)%nat.
Proof.
  induction l as [|x l IH]; intros Hf; [simpl; lia|].
  rewrite bind_cons, length_app, length_cons.
  pose proof (Hf x ltac:(apply list_elem_of_here)).
  pose proof (IH (λ y Hy, Hf y (list_elem_of_further _ _ _ Hy))). nia.
Qed.

Lemma length_doc_part max d :
  0 ≤ max → Z.of_nat (length (doc_part max d)) ≤ max.
Proof.
  intros Hmax. unfold doc_part. case_decide; [simpl; lia|].
  unfold doc_chunks_of. rewrite length_imap, length_slice_to by done. lia.
Qed.

Lemma doc_text_chunks_bound d c :
  c ∈ doc_text_chunks d → len c ≤ 1500.
Proof.
  unfold doc_text_chunks. intros Hc.
  destruct (chunk_text _ _ _ _) as [chunks|] eqn:Hr;
    [|by apply not_elem_of_nil in Hc].
  simpl in Hc. revert c Hc. apply Forall_forall.
  revert Hr. unfold chunk_text.
  destruct (Z.leb_spec (len (content d)) 1500).
  - intros [= <-]. by apply Forall_singleton.
  - intros Hr. by apply (chunk_loop_bound _ 1500 200 ltac:(lia)) in Hr.
Qed.

(** X7: [chunk_documentation] always returns; its result is the chunks of the
    documents in turn, and for a cap that is not negative there are at
    most [max_chunks_per_doc] of each document. *)
Theorem chunk_documentation_cap docs max :
  0 ≤ max →
  chunk_documentation docs max = Some (docs ≫= doc_part max) ∧
  (∀ d, Z.of_nat (length (doc_part max d)) ≤ max) ∧
  (length (docs ≫= doc_part max) ≤ Z.to_nat max * length docs)%nat.
Proof.
  intros Hmax. split; [apply chunk_documentation_bind|]. split.
  - intros d. by apply length_doc_part.
  - apply length_bind_le. intros d _.
    pose proof (length_doc_part max d Hmax). lia.
Qed.

Lemma chunk_documentation_cap_witness :
  chunk_documentation [readme_doc] 2 = Some ([readme_doc] ≫= doc_part 2) ∧
  (∀ d, Z.of_nat (length (doc_part 2 d)) ≤ 2) ∧
  (length ([readme_doc] ≫= doc_part 2) ≤ Z.to_nat 2 * length [readme_doc])%nat.
Proof. apply (chunk_documentation_cap [readme_doc] 2). lia. Defined.

(** X8: A document whose content is empty or blank adds no chunk: the result
    is that of the list without it. *)
Theorem chunk_documentation_skips_blank d before after max :
  strip (content d) = [] →
  chunk_documentation (before ++ d :: after) max =
  chunk_documentation (before ++ after) max.
Proof.
  intros Hblank. rewrite !chunk_documentation_bind.
  rewrite !bind_app, bind_cons. unfold doc_part at 2.
  by rewrite decide_True.
Qed.

Lemma chunk_documentation_skips_blank_witness :
  chunk_documentation ([readme_doc] ++ blank_doc :: []) 5 =
  chunk_documentation ([readme_doc] ++ []) 5.
Proof.
  apply (chunk_documentation_skips_blank blank_doc [readme_doc] [] 5).
  by vm_compute.
Defined.

(** X9: Every chunk of [chunk_documentation] (cap not negative) is piece [i]
    of the content of a document that is not blank: its id is
    [doc:<path>:<i>], its metadata name the path, [i] and a [total_chunks]
    with [i < total_chunks <= max_chunks_per_doc], its text has at most
    1500 characters, and the chunks [0 .. total_chunks - 1] of that
    document are all in the result. *)
Theorem chunk_documentation_chunks docs max chunks c :
  0 ≤ max →
  chunk_documentation docs max = Some chunks → c ∈ chunks →
  ∃ d i t,
    d ∈ docs ∧ strip (content d) ≠ [] ∧
    doc_text_chunks d !! i = Some (text c) ∧
    c = doc_chunk (path d) t i (text c) ∧
    id c = doc_id (path d) i ∧
    Z.of_nat i < t ∧ t ≤ max ∧ t ≤ Z.of_nat (length (doc_text_chunks d)) ∧
    len (text c) ≤ 1500 ∧
    ∀ j, Z.of_nat j < t →
         ∃ c', c' ∈ chunks ∧ id c' = doc_id (path d) j.
Proof.
  intros Hmax. rewrite chunk_documentation_bind. intros [= <-] Hc.
  apply list_elem_of_bind in Hc as (d & Hc & Hd).
  unfold doc_part in Hc. case_decide as Hblank;
    [by apply not_elem_of_nil in Hc|].
  unfold doc_chunks_of in Hc.
  set (pieces := doc_text_chunks d) in *.
  set (t := Z.min (Z.of_nat (length pieces)) max) in *.
  apply elem_of_lookup_imap in Hc as (i & x & -> & Hx).
  assert (slice_to pieces max = take (Z.to_nat max) pieces) as Hslice.
  { unfold slice_to, slice. rewrite (clamp_id _ 0) by lia.
    change (drop (Z.to_nat 0) pieces) with pieces.
    rewrite clamp_nonneg by done. rewrite Z.sub_0_r.
    destruct (Z.le_ge_cases max (Z.of_nat (length pieces))).
    - by rewrite Z.min_l.
    - rewrite Z.min_r, Nat2Z.id by done.
      by rewrite !take_ge by lia. }
  rewrite Hslice in Hx.
  pose proof (lookup_lt_Some _ _ _ Hx) as Hi. rewrite length_take in Hi.
  apply lookup_take_Some in Hx as [Hx _].
  assert (Z.of_nat i < t ∧ t ≤ max ∧ t ≤ Z.of_nat (length pieces))
    as (? & ? & ?) by (unfold t; lia).
  exists d, i, t. simpl. split_and!; try done.
  - apply doc_text_chunks_bound with d. by eapply list_elem_of_lookup_2.
  - intros j Hj.
    destruct (lookup_lt_is_Some_2 (take (Z.to_nat max) pieces) j) as [y Hy].
    { rewrite length_take. unfold t in Hj. lia. }
    exists (doc_chunk (path d) t j y). split; [|done].
    apply list_elem_of_bind. exists d. split; [|done].
    unfold doc_part. rewrite decide_False by done.
    unfold doc_chunks_of. fold pieces t. rewrite Hslice.
    by apply elem_of_lookup_imap_2.
Qed.

Lemma chunk_documentation_chunks_witness :
  ∃ d i t,
    d ∈ [readme_doc] ∧ strip (content d) ≠ [] ∧
    doc_text_chunks d !! i = Some (text readme_chunk) ∧
    readme_chunk = doc_chunk (path d) t i (text readme_chunk) ∧
    id readme_chunk = doc_id (path d) i ∧
    Z.of_nat i < t ∧ t ≤ 5 ∧ t ≤ Z.of_nat (length (doc_text_chunks d)) ∧
    len (text readme_chunk) ≤ 1500 ∧
    ∀ j, Z.of_nat j < t →
         ∃ c', c' ∈ [readme_chunk] ∧ id c' = doc_id (path d) j.
Proof.
  apply (chunk_documentation_chunks [readme_doc] 5 [readme_chunk]
           readme_chunk).
  - lia.
  - by vm_compute.
  - apply list_elem_of_here.
Defined.

Lemma slice_infix {A} (s : list A) i j :
  ∃ pre post, s = pre ++ slice s i j ++ post.
Proof.
  unfold slice. eexists (take _ s), (drop _ (drop _ s)).
  by rewrite take_drop, take_drop.
Qed.

Lemma length_commit_chunks c mf md :
  0 ≤ mf → Z.of_nat (length (commit_chunks c mf md)) ≤ Z.max 1 mf.
Proof.
  intros Hmf. unfold commit_chunks.
  destruct (_ && _); [simpl; lia|].
  rewrite length_imap, length_slice_to by done. lia.
Qed.

Lemma commit_metadata_lookup sha message author date file :
  commit_metadata sha message author date file !! lit "type"
    = Some (MStr (lit "commit")) ∧
  commit_metadata sha message author date file !! lit "sha"
    = Some (MStr sha) ∧
  commit_metadata sha message author date file !! lit "message"
    = Some (MStr message).
Proof.
  unfold commit_metadata. split_and!.
  - by rewrite lookup_insert_eq.
  - rewrite lookup_insert_ne by done. by rewrite lookup_insert_eq.
  - do 2 (rewrite lookup_insert_ne by done). by rewrite lookup_insert_eq.
Qed.

(** What a commit chunk is made of. *)
Lemma commit_chunk_parts c mf md ch :
  ch ∈ commit_chunks c mf md →
  ∃ (i : nat) header a,
    id ch = commit_id (hash c) i ∧
    (Z.of_nat i < Z.max 1 (Z.of_nat (length (default [] (files c))))) ∧
    (0 ≤ mf → Z.of_nat i < Z.max 1 mf) ∧
    text ch = header ++ slice (default [] (diff c)) a (a + md) ∧
    (lit "Commit: " ++ message c) `prefix_of` header ∧
    metadata ch !! lit "type" = Some (MStr (lit "commit")) ∧
    metadata ch !! lit "sha" = Some (MStr (hash c)) ∧
    metadata ch !! lit "message" = Some (MStr (message c)).
Proof.
  unfold commit_chunks.
  set (diff_text := default [] (diff c)).
  set (file_list := default [] (files c)).
  set (author_name := default (lit "Unknown") (author c)).
  set (date_text := default [] (date c)).
  destruct (_ && _) eqn:Hcase.
  - intros ->%list_elem_of_singleton.
    destruct (commit_metadata_lookup (hash c) (message c) author_name
                date_text MNone) as (? & ? & ?).
    exists 0%nat,
      (lit "Commit: " ++ message c ++ [newline] ++
       lit "Author: " ++ author_name ++ [newline] ++
       lit "Date: " ++ date_text ++ [newline; newline] ++
       lit "Diff:" ++ [newline]), 0.
    cbn [id text metadata].
    split_and!; [done|lia|lia| | |done..].
    + unfold slice_to. by rewrite <- !app_assoc.
    + by eexists.
  - intros (i & file_path & -> & Hi)%elem_of_lookup_imap.
    pose proof (lookup_lt_Some _ _ _ Hi) as Hlt.
    assert (length (slice_to file_list mf) ≤ length file_list)%nat as Hle'.
    { unfold slice_to, slice. rewrite length_take, length_drop. lia. }
    destruct (commit_metadata_lookup (hash c) (message c) author_name
                date_text (MStr file_path)) as (? & ? & ?).
    cbn [id text metadata].
    assert (∃ a, (if bool_decide (diff_text = []) then []
                  else if contains diff_text file_path
                       then slice diff_text (find diff_text file_path)
                              (find diff_text file_path + md)
                       else slice_to diff_text md)
                 = slice diff_text a (a + md)) as [a ->].
    { clear Hcase. case_bool_decide as Hd.
      - exists 0. rewrite Hd. by rewrite slice_nil.
      - destruct (contains _ _); [by eexists|by exists 0]. }
    exists i,
      (lit "Commit: " ++ message c ++ [newline] ++
       lit "File: " ++ file_path ++ [newline] ++
       lit "Author: " ++ author_name ++ [newline] ++
       lit "Date: " ++ date_text ++ [newline; newline] ++
       lit "Diff:" ++ [newline]), a.
    split_and!; [done|lia| | | |done..].
    + intros Hmf. pose proof (length_slice_to file_list mf Hmf). lia.
    + by rewrite <- !app_assoc.
    + by eexists.
Qed.

(** X10: Every chunk of [chunk_commits] (caps not negative) belongs to a commit
    of the list: its id is [commit:<sha>:<i>] with [i < max(1,
    max_files_per_commit)], its text is a header that starts with
    [Commit: <message>] followed by a contiguous part of the diff of at
    most [max_diff_chars] characters, and its metadata name the type
    [commit], the sha and the message.  A commit gives at most
    [max(1, max_files_per_commit)] chunks. *)
Theorem chunk_commits_chunks commits mf md ch :
  0 ≤ mf → 0 ≤ md →
  ch ∈ chunk_commits commits mf md →
  (length (chunk_commits commits mf md)
     ≤ Z.to_nat (Z.max 1 mf) * length commits)%nat ∧
  ∃ c (i : nat) header snippet before after,
    c ∈ commits ∧
    id ch = commit_id (hash c) i ∧
    Z.of_nat i < Z.max 1 mf ∧
    text ch = header ++ snippet ∧
    (lit "Commit: " ++ message c) `prefix_of` header ∧
    default [] (diff c) = before ++ snippet ++ after ∧
    len snippet ≤ md ∧
    metadata ch !! lit "type" = Some (MStr (lit "commit")) ∧
    metadata ch !! lit "sha" = Some (MStr (hash c)) ∧
    metadata ch !! lit "message" = Some (MStr (message c)).
Proof.
  intros Hmf Hmd. rewrite chunk_commits_bind. intros Hch. split.
  - apply length_bind_le. intros c _.
    pose proof (length_commit_chunks c mf md Hmf). lia.
  - apply list_elem_of_bind in Hch as (c & Hch & Hc).
    apply commit_chunk_parts in Hch
      as (i & header & a & Hid & _ & Hi & Htext & Hpre & Ht & Hs & Hm).
    destruct (slice_infix (default [] (diff c)) a (a + md))
      as (before & after & Hdiff).
    exists c, i, header, (slice (default [] (diff c)) a (a + md)),
      before, after.
    split_and!; try done.
    + by apply Hi.
    + pose proof (length_slice_le (default [] (diff c)) a (a + md)).
      unfold len. lia.
Qed.

Lemma chunk_commits_chunks_witness :
  (length (chunk_commits [patch_commit] 5 1000)
     ≤ Z.to_nat (Z.max 1 5) * length [patch_commit])%nat ∧
  ∃ c (i : nat) header snippet before after,
    c ∈ [patch_commit] ∧
    id patch_chunk = commit_id (hash c) i ∧
    Z.of_nat i < Z.max 1 5 ∧
    text patch_chunk = header ++ snippet ∧
    (lit "Commit: " ++ message c) `prefix_of` header ∧
    default [] (diff c) = before ++ snippet ++ after ∧
    len snippet ≤ 1000 ∧
    metadata patch_chunk !! lit "type" = Some (MStr (lit "commit")) ∧
    metadata patch_chunk !! lit "sha" = Some (MStr (hash c)) ∧
    metadata patch_chunk !! lit "message" = Some (MStr (message c)).
Proof.
  apply (chunk_commits_chunks [patch_commit] 5 1000 patch_chunk).
  - lia.
  - lia.
  - assert (chunk_commits [patch_commit] 5 1000 = [patch_chunk]) as ->
      by (by vm_compute).
    apply list_elem_of_here.
Defined.

(** A list built by [enumerate] with a function that is injective in the
    index has no duplicate. *)
Lemma NoDup_imap_index {A B} (f : nat → A → B) (l : list A) :
  (∀ i j x y, f i x = f j y → i = j) → NoDup (imap f l).
Proof.
  intros Hinj. apply NoDup_alt. intros i j b Hi Hj.
  rewrite list_lookup_imap in Hi, Hj.
  destruct (l !! i) as [x|]; [|done]. destruct (l !! j) as [y|]; [|done].
  simpl in *. apply (Hinj i j x y). congruence.
Qed.

Lemma doc_part_ids max d c :
  c ∈ doc_part max d → ∃ i, id c = doc_id (path d) i.
Proof.
  unfold doc_part. case_decide; [by intros ?%not_elem_of_nil|].
  unfold doc_chunks_of. intros (i & x & -> & _)%elem_of_lookup_imap.
  by exists i.
Qed.

Lemma NoDup_doc_part_ids max d : NoDup (id <$> doc_part max d).
Proof.
  unfold doc_part. case_decide; [apply NoDup_nil_2|].
  unfold doc_chunks_of. rewrite fmap_imap.
  apply NoDup_imap_index. intros i j x y Heq.
  by apply (doc_id_inj (path d) (path d)) in Heq as [_ ?].
Qed.

Lemma NoDup_doc_ids docs max :
  NoDup (path <$> docs) → NoDup (id <$> (docs ≫= doc_part max)).
Proof.
  induction docs as [|d docs IH]; [intros _; apply NoDup_nil_2|].
  rewrite fmap_cons, NoDup_cons. intros [Hd Hnd].
  rewrite bind_cons, fmap_app. apply NoDup_app. split_and!.
  - apply NoDup_doc_part_ids.
  - intros x (c & -> & Hc)%list_elem_of_fmap (c' & Heq & Hc')%list_elem_of_fmap.
    apply list_elem_of_bind in Hc' as (d' & Hc' & Hd').
    apply doc_part_ids in Hc as [i Hi], Hc' as [j Hj].
    rewrite Hi, Hj in Heq. apply doc_id_inj in Heq as [Hp _].
    apply Hd. rewrite Hp. by apply list_elem_of_fmap_2.
  - by apply IH.
Qed.

Lemma commit_chunks_ids c mf md ch :
  ch ∈ commit_chunks c mf md → ∃ i, id ch = commit_id (hash c) i.
Proof.
  intros (i & _ & _ & Hid & _)%commit_chunk_parts. by exists i.
Qed.

Lemma NoDup_commit_chunks_ids c mf md :
  NoDup (id <$> commit_chunks c mf md).
Proof.
  unfold commit_chunks. destruct (_ && _); [apply NoDup_singleton|].
  rewrite fmap_imap. apply NoDup_imap_index. intros i j x y Heq.
  by apply (commit_id_inj (hash c) (hash c)) in Heq as [_ ?].
Qed.

Lemma NoDup_commit_ids commits mf md :
  NoDup (hash <$> commits) → NoDup (id <$> chunk_commits commits mf md).
Proof.
  rewrite chunk_commits_bind.
  induction commits as [|c commits IH]; [intros _; apply NoDup_nil_2|].
  rewrite fmap_cons, NoDup_cons. intros [Hc Hnd].
  rewrite bind_cons, fmap_app. apply NoDup_app. split_and!.
  - apply NoDup_commit_chunks_ids.
  - intros x (ch & -> & Hch)%list_elem_of_fmap
      (ch' & Heq & Hch')%list_elem_of_fmap.
    apply list_elem_of_bind in Hch' as (c' & Hch' & Hc').
    apply commit_chunks_ids in Hch as [i Hi], Hch' as [j Hj].
    rewrite Hi, Hj in Heq. apply commit_id_inj in Heq as [Hp _].
    apply Hc. rewrite Hp. by apply list_elem_of_fmap_2.
  - by apply IH.
Qed.

Lemma NoDup_all_ids docs commits max mf md :
  NoDup (path <$> docs) → NoDup (hash <$> commits) →
  NoDup (id <$> ((docs ≫= doc_part max) ++ chunk_commits commits mf md)).
Proof.
  intros Hd Hc. rewrite fmap_app. apply NoDup_app. split_and!.
  - by apply NoDup_doc_ids.
  - intros x (c & -> & Hc1)%list_elem_of_fmap
      (ch & Heq & Hc2)%list_elem_of_fmap.
    apply list_elem_of_bind in Hc1 as (d & Hc1 & _).
    rewrite chunk_commits_bind in Hc2.
    apply list_elem_of_bind in Hc2 as (c' & Hc2 & _).
    apply doc_part_ids in Hc1 as [i Hi].
    apply commit_chunks_ids in Hc2 as [j Hj].
    rewrite Hi, Hj in Heq. by apply doc_id_ne_commit_id in Heq.
  - by apply NoDup_commit_ids.
Qed.

(** X11: When no two documents share a path and no two commits share a hash,
    no two chunks of [chunk_documentation] and [chunk_commits] together
    share an id, whatever characters the paths and hashes hold. *)
Theorem chunk_ids_unique docs commits max mf md chunks :
  NoDup (path <$> docs) → NoDup (hash <$> commits) →
  chunk_documentation docs max = Some chunks →
  NoDup (id <$> (chunks ++ chunk_commits commits mf md)).
Proof.
  intros Hd Hc. rewrite chunk_documentation_bind. intros [= <-].
  by apply NoDup_all_ids.
Qed.

Lemma chunk_ids_unique_witness :
  NoDup (id <$> ([readme_chunk] ++ chunk_commits [patch_commit] 5 1000)).
Proof.
  apply (chunk_ids_unique [readme_doc] [patch_commit] 5 5 1000).
  - apply NoDup_singleton.
  - apply NoDup_singleton.
  - by vm_compute.
Defined.

(** From [start] on, every position of the text lies in a window. *)
Lemma window_loop_covers text cs ov :
  0 ≤ ov → ov < cs → ov ≤ cs / 2 + 1 →
  ∀ fuel start l,
    0 ≤ start →
    window_loop fuel text cs ov start [] = Some l →
    ∀ p, start ≤ p < len text → ∃ w, w ∈ l ∧ 0 ≤ w.1 ≤ p ∧ p < w.2.
Proof.
  intros Hov0 Hov Hhalf.
  induction fuel as [|fuel IH]; intros start l Hstart Hl p Hp.
  { simpl in Hl. destruct (Z.ltb_spec start (len text)); [done|lia]. }
  rewrite window_loop_cons in Hl.
  destruct (Z.ltb_spec start (len text)) as [Hlt|]; [|lia].
  set (e := window_end text cs start) in *.
  destruct (window_loop fuel text cs ov (next_start text ov e) [])
    as [l'|] eqn:Hl'; simpl in Hl; [|done].
  injection Hl as <-.
  pose proof (window_end_after text cs ov start Hov0 Hov Hhalf Hstart) as He.
  fold e in He.
  destruct (Z.lt_ge_cases p e) as [Hpe|Hpe].
  - exists (start, e). split; [apply list_elem_of_here|]. simpl. lia.
  - assert (next_start text ov e = e - ov) as Hnext.
    { unfold next_start. destruct (Z.ltb_spec e (len text)); [done|lia]. }
    rewrite Hnext in Hl'.
    destruct (IH (e - ov) l' ltac:(lia) Hl' p ltac:(lia)) as (w & Hw & ?).
    exists w. split; [by apply list_elem_of_further|done].
Qed.

Lemma lookup_slice {A} (s : list A) a b p :
  0 ≤ a ≤ p → p < b → p < Z.of_nat (length s) →
  slice s a b !! Z.to_nat (p - a) = s !! Z.to_nat p.
Proof.
  intros Ha Hb Hp. unfold slice.
  rewrite (clamp_id _ a) by lia. rewrite clamp_nonneg by lia.
  rewrite lookup_take_lt by lia. rewrite lookup_drop. f_equal. lia.
Qed.

(** X12: For [0 <= overlap < chunk_size] with [overlap <= chunk_size // 2 + 1],
    [chunk_text] on a text longer than [chunk_size] returns the trimmed
    windows of the text, and the windows leave no character out: every
    position of the text lies in a window, which holds the character of
    that position. *)
Theorem chunk_text_covers text cs ov :
  0 ≤ ov → ov < cs → ov ≤ cs / 2 + 1 → cs < len text →
  ∃ ws : list (Z * Z),
    chunk_text (length text) text cs ov = Some (chunk_of_window text <$> ws) ∧
    ∀ p, 0 ≤ p < len text →
      ∃ w, w ∈ ws ∧ 0 ≤ w.1 ≤ p ∧ p < w.2 ∧
           slice text w.1 w.2 !! Z.to_nat (p - w.1) = text !! Z.to_nat p.
Proof.
  intros Hov0 Hov Hhalf Hlen. unfold chunk_text.
  destruct (Z.leb_spec (len text) cs); [lia|].
  pose proof (chunk_loop_windows text cs ov (length text) 0 []) as Hw.
  change (chunk_of_window text <$> []) with (@nil str) in Hw.
  destruct (chunk_loop_terminates text cs ov Hov Hhalf (length text) 0 [])
    as [chunks Hc]; [unfold len; lia|].
  rewrite Hc in Hw.
  destruct (window_loop (length text) text cs ov 0 []) as [ws|] eqn:Hws;
    [|done].
  simpl in Hw. exists ws. split; [by rewrite Hc, Hw|].
  intros p Hp.
  destruct (window_loop_covers text cs ov Hov0 Hov Hhalf _ 0 ws
              ltac:(lia) Hws p Hp) as (w & Hw' & Hlo & Hhi).
  exists w. split_and!; try done; [lia..|].
  apply lookup_slice; [lia|done|]. unfold len in Hp. lia.
Qed.

Lemma chunk_text_covers_witness :
  ∃ ws : list (Z * Z),
    chunk_text (length two_words_text) two_words_text 10 2
      = Some (chunk_of_window two_words_text <$> ws) ∧
    ∀ p, 0 ≤ p < len two_words_text →
      ∃ w, w ∈ ws ∧ 0 ≤ w.1 ≤ p ∧ p < w.2 ∧
           slice two_words_text w.1 w.2 !! Z.to_nat (p - w.1)
           = two_words_text !! Z.to_nat p.
Proof.
  apply (chunk_text_covers two_words_text 10 2).
  - lia.
  - lia.
  - by vm_compute.
  - by vm_compute.
Defined.

Lemma lstrip_head s x : head (lstrip s) = Some x → isspace x = false.
Proof.
  induction s as [|c s IH]; simpl; [done|].
  destruct (isspace c) eqn:Hc; [done|]. simpl. by intros [= <-].
Qed.

Lemma lstrip_suffix s : ∃ blanks, s = blanks ++ lstrip s.
Proof.
  induction s as [|c s [blanks IH]]; simpl; [by exists []|].
  destruct (isspace c); [|by exists []].
  exists (c :: blanks). simpl. by rewrite <- IH.
Qed.

Lemma rstrip_prefix s : ∃ blanks, s = rstrip s ++ blanks.
Proof.
  unfold rstrip. destruct (lstrip_suffix (reverse s)) as [blanks Hb].
  exists (reverse blanks). rewrite <- reverse_app, <- Hb.
  by rewrite reverse_involutive.
Qed.

Lemma rstrip_last s x : last (rstrip s) = Some x → isspace x = false.
Proof.
  unfold rstrip. rewrite last_reverse. apply lstrip_head.
Qed.

(** A trimmed string neither starts nor ends with a whitespace
    character. *)
Lemma strip_ends s x :
  head (strip s) = Some x ∨ last (strip s) = Some x → isspace x = false.
Proof.
  unfold strip. intros [Hx|Hx]; [|by eapply rstrip_last].
  destruct (rstrip_prefix (lstrip s)) as [blanks Hb].
  apply (lstrip_head s). rewrite Hb.
  destruct (rstrip (lstrip s)); [done|]. done.
Qed.

Lemma chunk_loop_trimmed text cs ov : ∀ fuel start chunks r,
  chunk_loop fuel text cs ov start chunks = Some r →
  Forall (λ c, ∀ x, head c = Some x ∨ last c = Some x → isspace x = false)
    chunks →
  Forall (λ c, ∀ x, head c = Some x ∨ last c = Some x → isspace x = false) r.
Proof.
  induction fuel as [|fuel IH]; intros start chunks r Hr Hall.
  - simpl in Hr. destruct (start <? len text); by simplify_eq.
  - rewrite chunk_loop_unfold in Hr.
    destruct (start <? len text); [|by simplify_eq].
    apply IH in Hr; [done|]. apply Forall_app. split; [done|].
    apply Forall_singleton. apply strip_ends.
Qed.

Lemma chunk_loop_prefix text cs ov : ∀ fuel start chunks r,
  chunk_loop fuel text cs ov start chunks = Some r → chunks `prefix_of` r.
Proof.
  induction fuel as [|fuel IH]; intros start chunks r Hr.
  - simpl in Hr. destruct (start <? len text); by simplify_eq.
  - rewrite chunk_loop_unfold in Hr.
    destruct (start <? len text); [|by simplify_eq].
    apply IH in Hr. etrans; [|exact Hr]. by apply prefix_app_r.
Qed.

(** X13: The chunks [chunk_text] cuts from a text longer than [chunk_size]
    (not negative) are trimmed: none starts or ends with a whitespace character (a text that
    fits is returned as it is, blanks included), and there is at least
    one. *)
Theorem chunk_text_chunks_trimmed fuel text cs ov chunks :
  0 ≤ cs → cs < len text →
  chunk_text fuel text cs ov = Some chunks →
  chunks ≠ [] ∧
  ∀ c x, c ∈ chunks → head c = Some x ∨ last c = Some x →
         isspace x = false.
Proof.
  intros Hcs Hlen. unfold chunk_text.
  destruct (Z.leb_spec (len text) cs); [lia|]. intros Hr. split.
  - destruct fuel as [|fuel].
    { simpl in Hr. destruct (Z.ltb_spec 0 (len text)); [done|lia]. }
    rewrite chunk_loop_unfold in Hr.
    destruct (Z.ltb_spec 0 (len text)); [|lia].
    apply chunk_loop_prefix in Hr as [rest ->]. done.
  - apply chunk_loop_trimmed in Hr; [|done].
    intros c x Hc. rewrite Forall_forall in Hr. by apply Hr.
Qed.

Lemma chunk_text_chunks_trimmed_witness :
  [lit "Title"; []; []; []; lit "Body"] ≠ [] ∧
  ∀ c x, c ∈ [lit "Title"; []; []; []; lit "Body"] →
         head c = Some x ∨ last c = Some x → isspace x = false.
Proof.
  apply (chunk_text_chunks_trimmed 34 blank_run_text 10 3).
  - lia.
  - by vm_compute.
  - by vm_compute.
Defined.

(** A document that is not blank has a chunk, the one with index 0. *)
Lemma doc_part_first max d :
  0 < max → strip (content d) ≠ [] →
  ∃ c, c ∈ doc_part max d ∧ id c = doc_id (path d) 0.
Proof.
  intros Hmax Hd. unfold doc_part. rewrite decide_False by done.
  unfold doc_chunks_of.
  assert (doc_text_chunks d ≠ []) as Hne.
  { unfold doc_text_chunks.
    destruct (chunk_text_1500_200 (content d)) as [chunks Hc]. rewrite Hc.
    simpl. revert Hc. unfold chunk_text.
    destruct (Z.leb_spec (len (content d)) 1500) as [|Hlong];
      [by intros [= <-]|].
    destruct (length (content d)) as [|fuel] eqn:Hl.
    { unfold len in Hlong. lia. }
    rewrite chunk_loop_unfold.
    destruct (Z.ltb_spec 0 (len (content d))); [|lia].
    intros [rest ->]%chunk_loop_prefix. done. }
  destruct (doc_text_chunks d) as [|x pieces] eqn:Hp; [done|].
  assert (slice_to (x :: pieces) max !! 0%nat = Some x) as Hx.
  { unfold slice_to, slice. rewrite (clamp_id _ 0) by lia.
    rewrite clamp_nonneg by lia. rewrite lookup_take_lt.
    - done.
    - simpl length. lia. }
  eexists. split; [by eapply elem_of_lookup_imap_2|]. done.
Qed.

(** [find_from] returns a position at which the needle occurs. *)
Lemma find_from_occurs sub : ∀ s i j,
  find_from sub s i = Some j →
  ∃ k, j = (i + k)%nat ∧ (k ≤ length s)%nat ∧
       take (length sub) (drop k s) = sub.
Proof.
  induction s as [|c s IH]; intros i j; simpl.
  - case_decide as Hsub; [|done]. intros [= <-].
    exists 0%nat. split_and!; [lia|done|done].
  - case_decide as Hsub.
    + intros [= <-]. exists 0%nat. split_and!; [lia|lia|done].
    + intros (k & -> & Hk & Hocc)%IH.
      exists (S k). split_and!; [lia|lia|done].
Qed.

Lemma slice_from {A} (s : list A) (k : nat) n :
  0 ≤ n → (k ≤ length s)%nat →
  slice s (Z.of_nat k) (Z.of_nat k + n) = take (Z.to_nat n) (drop k s).
Proof.
  intros Hn Hk. unfold slice.
  rewrite (clamp_id _ (Z.of_nat k)) by lia. rewrite clamp_nonneg by lia.
  rewrite Nat2Z.id.
  destruct (Z.le_gt_cases (Z.of_nat k + n) (Z.of_nat (length s))).
  - f_equal. lia.
  - rewrite !take_ge; [done|rewrite length_drop; lia..].
Qed.

Lemma lookup_slice_to {A} (l : list A) n (i : nat) x :
  l !! i = Some x → Z.of_nat i < n → slice_to l n !! i = Some x.
Proof.
  intros Hx Hi. pose proof (lookup_lt_Some _ _ _ Hx).
  unfold slice_to.
  rewrite <- Hx, <- (Nat2Z.id i) at 1.
  rewrite <- (Z.sub_0_r (Z.of_nat i)) at 1.
  rewrite lookup_slice by lia. by rewrite Nat2Z.id.
Qed.

(** X14: For a commit that lists files, file [i] below the cap has a chunk of
    its own, with that file in its metadata.  After the header the chunk
    holds up to [max_diff_chars] characters of the diff: from an
    occurrence of the file's path on when the diff names the path, from
    the start of the diff otherwise, and nothing for an empty diff. *)
Theorem chunk_commits_file_snippet commits c mf md fs (i : nat) f :
  c ∈ commits → files c = Some fs → fs !! i = Some f →
  Z.of_nat i < mf → 0 ≤ md →
  let diff_text := default [] (diff c) in
  ∃ ch snippet,
    ch ∈ chunk_commits commits mf md ∧
    id ch = commit_id (hash c) i ∧
    metadata ch !! lit "file" = Some (MStr f) ∧
    text ch =
      lit "Commit: " ++ message c ++ [newline] ++
      lit "File: " ++ f ++ [newline] ++
      lit "Author: " ++ default (lit "Unknown") (author c) ++ [newline] ++
      lit "Date: " ++ default [] (date c) ++ [newline; newline] ++
      lit "Diff:" ++ [newline] ++ snippet ∧
    (diff_text = [] → snippet = []) ∧
    (contains diff_text f = false →
     snippet = take (Z.to_nat md) diff_text) ∧
    (diff_text ≠ [] → contains diff_text f = true →
     ∃ before rest,
       diff_text = before ++ f ++ rest ∧
       snippet = take (Z.to_nat md) (f ++ rest)).
Proof.
  intros Hc Hfs Hf Hi Hmd diff_text.
  assert (slice_to fs mf !! i = Some f) as Hslice
    by by apply lookup_slice_to.
  assert (∀ s : str, slice_to s md = take (Z.to_nat md) s) as Hto.
  { intros s. unfold slice_to.
    exact (slice_from s 0 md Hmd ltac:(lia)). }
  eexists _, _. split.
  { rewrite chunk_commits_bind. apply list_elem_of_bind. exists c.
    split; [|done]. unfold commit_chunks. rewrite Hfs.
    change (default [] (Some fs)) with fs.
    rewrite bool_decide_eq_false_2.
    2:{ intros ->. done. }
    cbn [andb]. by eapply elem_of_lookup_imap_2. }
  cbn [id text metadata]. fold diff_text.
  split; [done|]. split.
  { unfold commit_metadata.
    do 5 (rewrite lookup_insert_ne by done). by rewrite lookup_insert_eq. }
  split; [done|]. split_and!.
  - intros Hnil. by rewrite bool_decide_eq_true_2.
  - intros Hno. rewrite Hno. case_bool_decide as Hd; [|by rewrite Hto].
    rewrite Hd. by rewrite take_nil.
  - intros Hne Hyes. rewrite bool_decide_eq_false_2 by done. rewrite Hyes.
    unfold contains in Hyes. apply bool_decide_eq_true in Hyes as [j Hj].
    unfold find. rewrite Hj.
    apply find_from_occurs in Hj as (k & -> & Hk & Hocc).
    rewrite slice_from by done.
    exists (take k diff_text), (drop (length f) (drop k diff_text)).
    rewrite <- Hocc at 1 3. rewrite take_drop. split; [|done].
    by rewrite take_drop.
Qed.

Lemma chunk_commits_file_snippet_witness :
  ∃ ch snippet,
    ch ∈ chunk_commits [patch_commit] 5 1000 ∧
    id ch = commit_id (hash patch_commit) 0 ∧
    metadata ch !! lit "file" = Some (MStr (lit "parser.py")) ∧
    text ch =
      lit "Commit: " ++ message patch_commit ++ [newline] ++
      lit "File: " ++ lit "parser.py" ++ [newline] ++
      lit "Author: " ++ default (lit "Unknown") (author patch_commit) ++
      [newline] ++
      lit "Date: " ++ default [] (date patch_commit) ++ [newline; newline] ++
      lit "Diff:" ++ [newline] ++ snippet ∧
    (default [] (diff patch_commit) = [] → snippet = []) ∧
    (contains (default [] (diff patch_commit)) (lit "parser.py") = false →
     snippet = take (Z.to_nat 1000) (default [] (diff patch_commit))) ∧
    (default [] (diff patch_commit) ≠ [] →
     contains (default [] (diff patch_commit)) (lit "parser.py") = true →
     ∃ before rest,
       default [] (diff patch_commit) = before ++ lit "parser.py" ++ rest ∧
       snippet = take (Z.to_nat 1000) (lit "parser.py" ++ rest)).
Proof.
  apply (chunk_commits_file_snippet [patch_commit] patch_commit 5 1000
           [lit "parser.py"] 0 (lit "parser.py")).
  - apply list_elem_of_here.
  - reflexivity.
  - reflexivity.
  - lia.
  - lia.
Defined.

End ChunkerMore.

(** ** More on the indexer and the store *)

Module IndexerMore.
Import Py PyFacts Chunker ChunkerFacts ChunkIds Chroma Indexer IndexerFacts
  IndexerStats Store ChunkerMore Samples.

Implicit Types (client : gmap str (gmap str (entry (gmap str mval)))).
Implicit Types (col : gmap str (entry (gmap str mval))).
Implicit Types (name url : str) (cname : option str).
Implicit Types (sha256_hexdigest : str → str) (pol : id_policy).
Implicit Types (data : repo_data).

Lemma add_one_union {M} (c : gmap str (entry M)) r :
  add_one c r = c ∪ {[ r.1 := r.2 ]}.
Proof.
  unfold add_one. apply map_eq. intros k. rewrite lookup_union.
  destruct (c !! r.1) eqn:Hr; destruct (decide (k = r.1)) as [->|Hne].
  - by rewrite Hr, lookup_singleton_eq.
  - rewrite lookup_singleton_ne by done. by destruct (c !! k).
  - by rewrite lookup_insert_eq, Hr, lookup_singleton_eq.
  - rewrite lookup_insert_ne, lookup_singleton_ne by done.
    by destruct (c !! k).
Qed.

(** [collection.add] writes the entries of the batch whose id is new and
    leaves the stored ones. *)
Lemma foldl_add_one_union {M} (batch : list (str * entry M)) :
  ∀ c : gmap str (entry M),
    foldl add_one c batch = c ∪ list_to_map batch.
Proof.
  induction batch as [|r batch IH]; intros c; simpl.
  - by rewrite (right_id_L ∅ (∪)).
  - rewrite IH, add_one_union, insert_union_singleton_l.
    by rewrite (assoc_L (∪)).
Qed.

Lemma add_result {M} pol (batch : list (str * entry M))
    (c c' : gmap str (entry M)) :
  add pol batch c = Ok c' → NoDup batch.*1 ∧ c' = c ∪ list_to_map batch.
Proof.
  unfold add. case_bool_decide; [|done].
  rewrite foldl_add_one_union.
  destruct pol; [by intros [= <-]|]. case_bool_decide; [done|].
  by intros [= <-].
Qed.

Lemma chunk_record_ids (chunks : list chunk) :
  (chunk_record <$> chunks).*1 = id <$> chunks.
Proof. rewrite <- list_fmap_compose. done. Qed.

(** [index_repo], with the chunker's result written out. *)
Lemma index_repo_eq sha256_hexdigest pol data url cname client :
  index_repo sha256_hexdigest pol data url cname client =
  let name := resolve_collection_name sha256_hexdigest url cname in
  let created := get_or_create_collection name client in
  if decide (repo_chunks data = []) then Some (Ok name, created.1)
  else
    match add pol (chunk_record <$> repo_chunks data) created.2 with
    | Ok collection' => Some (Ok name, <[name := collection']> created.1)
    | Raise => Some (Raise, created.1)
    end.
Proof.
  unfold index_repo, repo_chunks.
  destruct (get_or_create_collection _ client) as [client0 col0].
  by rewrite chunk_documentation_bind.
Qed.

Lemma get_or_create_collection_eq {M} name
    (client : gmap str (gmap str (entry M))) :
  get_or_create_collection name client =
  (<[name := default ∅ (client !! name)]> client, default ∅ (client !! name)).
Proof.
  unfold get_or_create_collection.
  destruct (client !! name) as [c|] eqn:Hc; simpl; [|done].
  by rewrite insert_id.
Qed.

(** The entries of a batch of chunk records. *)
Lemma lookup_chunk_records (chunks : list chunk) k e :
  (list_to_map (chunk_record <$> chunks) : gmap str _) !! k = Some e →
  ∃ c, c ∈ chunks ∧ k = id c ∧ e = stored c.
Proof.
  intros H%elem_of_list_to_map_2.
  apply list_elem_of_fmap in H as (c & [= -> ->] & Hc). by exists c.
Qed.


(** On a collection that is absent or empty, a batch of chunks with
    distinct ids is written as it is. *)
Lemma index_repo_fresh_eq sha256_hexdigest pol data url cname client :
  let name := resolve_collection_name sha256_hexdigest url cname in
  NoDup (id <$> repo_chunks data) →
  default ∅ (client !! name) = ∅ →
  index_repo sha256_hexdigest pol data url cname client =
  Some (Ok name,
        <[name := list_to_map (chunk_record <$> repo_chunks data)]> client).
Proof.
  intros name Hnd Hfresh.
  rewrite index_repo_eq. cbv zeta. rewrite get_or_create_collection_eq.
  fold name. rewrite Hfresh. cbn [fst snd].
  case_decide as Hnil; [by rewrite Hnil|].
  assert (add pol (chunk_record <$> repo_chunks data) ∅
          = Ok (list_to_map (chunk_record <$> repo_chunks data))) as ->.
  { unfold add. rewrite chunk_record_ids.
    rewrite bool_decide_eq_true_2 by done.
    rewrite foldl_add_one_union, (left_id_L ∅ (∪)).
    destruct pol; [done|].
    rewrite bool_decide_eq_false_2; [done|].
    intros (r & _ & [e He])%Exists_exists. by rewrite lookup_empty in He. }
  by rewrite insert_insert_eq.
Qed.

Lemma lookup_stored (chunks : list chunk) c :
  NoDup (id <$> chunks) → c ∈ chunks →
  (list_to_map (chunk_record <$> chunks) : gmap str _) !! id c
    = Some (stored c).
Proof.
  intros Hnd Hc. apply elem_of_list_to_map_1.
  - by rewrite chunk_record_ids.
  - apply list_elem_of_fmap. by exists c.
Qed.

Lemma size_stored (chunks : list chunk) :
  NoDup (id <$> chunks) →
  size (list_to_map (chunk_record <$> chunks) : gmap str _) = length chunks.
Proof.
  intros Hnd. rewrite map_size_list_to_map, length_fmap; [done|].
  by rewrite chunk_record_ids.
Qed.

Lemma NoDup_repo_chunks data :
  NoDup (path <$> default [] (documentation data)) →
  NoDup (hash <$> default [] (commits data)) →
  NoDup (id <$> repo_chunks data).
Proof. intros Hp Hh. by apply NoDup_all_ids. Qed.



Lemma length_filter_disjoint {A} (P Q : A → Prop)
    `{!∀ x, Decision (P x)} `{!∀ x, Decision (Q x)} (l : list A) :
  (∀ x, x ∈ l → P x → ¬ Q x) →
  (length (filter P l) + length (filter Q l) ≤ length l)%nat.
Proof.
  induction l as [|x l IH]; intros Hdis; [done|].
  pose proof (IH (λ y Hy, Hdis y (list_elem_of_further _ _ _ Hy))).
  pose proof (Hdis x (list_elem_of_here _ _)).
  rewrite !filter_cons. repeat case_decide; simpl; try lia. tauto.
Qed.

Lemma length_filter_cover {A} (P Q : A → Prop)
    `{!∀ x, Decision (P x)} `{!∀ x, Decision (Q x)} (l : list A) :
  (∀ x, x ∈ l → P x ∨ Q x) →
  (length l ≤ length (filter P l) + length (filter Q l))%nat.
Proof.
  induction l as [|x l IH]; intros Hcov; [done|].
  pose proof (IH (λ y Hy, Hcov y (list_elem_of_further _ _ _ Hy))).
  pose proof (Hcov x (list_elem_of_here _ _)).
  rewrite !filter_cons. repeat case_decide; simpl; try lia. tauto.
Qed.

Lemma count_type_disjoint (metadatas : list (gmap str mval)) :
  0 ≤ count_type (lit "doc") metadatas ∧
  0 ≤ count_type (lit "commit") metadatas ∧
  count_type (lit "doc") metadatas + count_type (lit "commit") metadatas
    ≤ Z.of_nat (length metadatas).
Proof.
  unfold count_type. split_and!; [lia..|].
  pose proof (length_filter_disjoint
    (λ m : gmap str mval, m !! lit "type" = Some (MStr (lit "doc")))
    (λ m : gmap str mval, m !! lit "type" = Some (MStr (lit "commit")))
    metadatas) as H.
  assert (∀ m : gmap str mval, m ∈ metadatas →
            m !! lit "type" = Some (MStr (lit "doc")) →
            ¬ m !! lit "type" = Some (MStr (lit "commit"))) as Hdis.
  { intros m _ Hd Hc. rewrite Hd in Hc. done. }
  specialize (H Hdis). lia.
Qed.

Lemma length_sample {M} (c : gmap str (entry M)) :
  Z.of_nat (length (take (Z.to_nat (Z.min 10 (Z.of_nat (size c))))
                      (map_to_list c)))
  = Z.min 10 (Z.of_nat (size c)).
Proof. rewrite length_take, length_map_to_list. lia. Qed.

(** X17: [get_collection_stats] gives the error dict exactly when the client
    has no collection of that name (it does not create one).  Otherwise
    [total_chunks] is the size of the collection, and the two sample
    counts are not negative and add up to at most [min(10, total_chunks)],
    the size of the sample. *)
Theorem get_collection_stats_bounds name client :
  match get_collection_stats name client with
  | StatsError => client !! name = None
  | Stats n total sample_doc sample_commit =>
      n = name ∧
      ∃ col, client !! name = Some col ∧ total = Z.of_nat (size col) ∧
        0 ≤ sample_doc ∧ 0 ≤ sample_commit ∧
        sample_doc + sample_commit ≤ Z.min 10 total
  end.
Proof.
  unfold get_collection_stats.
  destruct (client !! name) as [col|] eqn:Hc; [|done].
  split; [done|]. exists col. split; [done|]. split; [done|].
  set (sample := take _ (map_to_list col)).
  pose proof (count_type_disjoint (meta <$> sample.*2)) as (? & ? & Hsum).
  rewrite !length_fmap in Hsum. unfold sample in Hsum.
  rewrite length_sample in Hsum. done.
Qed.

Lemma doc_part_type max d c :
  c ∈ doc_part max d → metadata c !! lit "type" = Some (MStr (lit "doc")).
Proof.
  unfold doc_part. case_decide; [by intros ?%not_elem_of_nil|].
  unfold doc_chunks_of. intros (i & x & -> & _)%elem_of_lookup_imap.
  unfold doc_chunk. cbn [metadata]. by rewrite lookup_insert_eq.
Qed.

Lemma repo_chunks_type data c :
  c ∈ repo_chunks data →
  metadata c !! lit "type" = Some (MStr (lit "doc")) ∨
  metadata c !! lit "type" = Some (MStr (lit "commit")).
Proof.
  unfold repo_chunks. intros [Hc|Hc]%elem_of_app.
  - left. apply list_elem_of_bind in Hc as (d & Hc & _).
    by eapply doc_part_type.
  - right. rewrite chunk_commits_bind in Hc.
    apply list_elem_of_bind in Hc as (c' & Hc & _).
    by apply commit_chunk_parts in Hc as (? & ? & ? & _ & _ & _ & _ & _ & ? & _).
Qed.



(** X19: [delete_collection] returns [True] exactly when the client held the
    collection.  Afterwards the collection is gone and the others are as
    they were: a second call returns [False], [get_collection_stats] gives
    the error dict, and [get_or_create_collection] starts from an empty
    collection. *)
Theorem delete_collection_removes name client :
  let deleted := (delete_collection name client).1 in
  let client' := (delete_collection name client).2 in
  (deleted = true ↔ is_Some (client !! name)) ∧
  client' !! name = None ∧
  (∀ other, other ≠ name → client' !! other = client !! other) ∧
  delete_collection name client' = (false, client') ∧
  get_collection_stats name client' = StatsError ∧
  get_or_create_collection name client' = (<[name := ∅]> client, ∅).
Proof.
  unfold delete_collection.
  destruct (client !! name) as [col|] eqn:Hc; cbn [fst snd].
  - assert (delete name client !! name = None) as Hgone
      by apply lookup_delete_eq.
    split_and!; [by eauto|done| | | |].
    + intros other Hne. by apply lookup_delete_ne.
    + by rewrite Hgone.
    + unfold get_collection_stats. by rewrite Hgone.
    + unfold get_or_create_collection. rewrite Hgone.
      by rewrite insert_delete_eq.
  - split_and!; [|done|done| | |].
    + split; [done|]. by intros [? ?].
    + by rewrite Hc.
    + unfold get_collection_stats. by rewrite Hc.
    + unfold get_or_create_collection. by rewrite Hc.
Qed.

Lemma index_repo_raises sha256_hexdigest pol data url cname client :
  ¬ NoDup (id <$> repo_chunks data) →
  index_repo sha256_hexdigest pol data url cname client =
  Some (Raise,
        <[resolve_collection_name sha256_hexdigest url cname :=
            default ∅ (client !! resolve_collection_name sha256_hexdigest
                                   url cname)]> client).
Proof.
  intros Hdup. rewrite index_repo_eq. cbv zeta.
  rewrite get_or_create_collection_eq. cbn [fst snd].
  rewrite decide_False.
  2:{ intros Hnil. apply Hdup. rewrite Hnil. apply NoDup_nil_2. }
  unfold add. rewrite chunk_record_ids.
  by rewrite bool_decide_eq_false_2.
Qed.

(** X20: When the documentation lists two documents with the same path, both
    with content that is not blank, their first chunks get the same id:
    [collection.add] refuses the batch, so [index_repo] raises and stores
    no chunk at all; the collection exists afterwards with the entries it
    had. *)
Theorem index_repo_rejects_repeated_path sha256_hexdigest pol data url cname
    client before d1 between d2 after :
  let name := resolve_collection_name sha256_hexdigest url cname in
  default [] (documentation data) = before ++ d1 :: between ++ d2 :: after →
  path d1 = path d2 →
  strip (content d1) ≠ [] → strip (content d2) ≠ [] →
  index_repo sha256_hexdigest pol data url cname client =
  Some (Raise, <[name := default ∅ (client !! name)]> client).
Proof.
  intros name Hdocs Hpath Hd1 Hd2. apply index_repo_raises.
  destruct (doc_part_first 5 d1 ltac:(lia) Hd1) as (c1 & Hc1 & Hid1).
  destruct (doc_part_first 5 d2 ltac:(lia) Hd2) as (c2 & Hc2 & Hid2).
  assert (repo_chunks data =
          ((before ≫= doc_part 5) ++ doc_part 5 d1) ++
          (((between ≫= doc_part 5) ++ doc_part 5 d2 ++
            (after ≫= doc_part 5)) ++
           chunk_commits (default [] (commits data)) 5 1000)) as ->.
  { unfold repo_chunks. rewrite Hdocs.
    rewrite bind_app, bind_cons, bind_app, bind_cons.
    by rewrite <- !app_assoc. }
  rewrite fmap_app. intros (_ & Hdis & _)%NoDup_app.
  apply (Hdis (id c1)).
  - apply list_elem_of_fmap_2. apply elem_of_app. by right.
  - rewrite Hid1, Hpath, <- Hid2. apply list_elem_of_fmap_2.
    rewrite !elem_of_app. left. right. by left.
Qed.

Lemma index_repo_rejects_repeated_path_witness :
  index_repo sample_digest KeepExisting repeated_repo
    (lit "https://github.com/o/r") None ∅ =
  Some (Raise,
        <[resolve_collection_name sample_digest (lit "https://github.com/o/r")
            None :=
            default ∅ ((∅ : gmap str (gmap str (entry (gmap str mval)))) !!
                       resolve_collection_name sample_digest
                         (lit "https://github.com/o/r") None)]> ∅).
Proof.
  apply (index_repo_rejects_repeated_path sample_digest KeepExisting
           repeated_repo (lit "https://github.com/o/r") None ∅
           [] readme_doc [] readme_doc []).
  - reflexivity.
  - reflexivity.
  - by vm_compute.
  - by vm_compute.
Defined.

End IndexerMore.

(** ** More on retrieval *)

Module RetrievalMore.
Import Py PyFacts Chunker ChunkerFacts ChunkIds Chroma Indexer IndexerFacts
  IndexerStats Retrieval RetrievalFacts RetrievalSearch ChunkerMore
  IndexerMore Samples.

Implicit Types (client : gmap str (gmap str (entry (gmap str mval)))).
Implicit Types (name url query : str) (cname : option str).
Implicit Types (sha256_hexdigest : str → str) (data : repo_data).
Implicit Types (max : Z) (md : gmap str mval).

Lemma sum_len_cons p parts : sum_len (p :: parts) = len p + sum_len parts.
Proof. done. Qed.

Lemma len_block (h doc : str) :
  len (h ++ [newline] ++ doc ++ [newline]) = len doc + len h + 2.
Proof. rewrite !len_app. unfold len. simpl. lia. Qed.

Lemma sum_len_nonneg parts : 0 ≤ sum_len parts.
Proof.
  induction parts as [|p parts IH]; [done|].
  rewrite sum_len_cons. pose proof (len_nonneg p). lia.
Qed.

(** The loop of [retrieve_context], from any state in which
    [total_chars] is the size of the blocks made so far. *)
Lemma assemble_steps {D} max : ∀ (rs : list (str * gmap str mval * D))
    acc total parts,
  assemble rs max acc total = Ok parts → total = sum_len acc →
  ∃ new,
    parts = acc ++ new ∧
    (length new ≤ length rs)%nat ∧
    (∀ i p, new !! i = Some p →
       ∃ doc md dist h,
         rs !! i = Some (doc, md, dist) ∧ header_of md = Ok h ∧
         p = h ++ [newline] ++ doc ++ [newline] ∧
         sum_len acc + sum_len (take i new) + len doc ≤ max) ∧
    (∀ doc md dist, rs !! length new = Some (doc, md, dist) →
       max < sum_len acc + sum_len new + len doc) ∧
    (new ≠ [] →
     sum_len acc + sum_len ((λ r, r.1.1) <$> take (length new) rs) ≤ max).
Proof.
  induction rs as [|[[doc md] dist] rs IH]; intros acc total parts Hr Htot;
    simpl in Hr.
  - injection Hr as <-. exists []. rewrite app_nil_r.
    split_and!; try done.
  - destruct (Z.gtb_spec (total + len doc) max) as [Hgt|Hle].
    { injection Hr as <-. exists []. rewrite app_nil_r.
      split_and!; try done; [simpl; lia|].
      intros doc' md' dist' [= -> -> ->]. simpl. lia. }
    destruct (header_of md) as [h|] eqn:Hmd; [|done].
    change (h ++ newline :: doc ++ [newline])
      with (h ++ [newline] ++ doc ++ [newline]) in Hr.
    set (block := h ++ [newline] ++ doc ++ [newline]) in *.
    assert (sum_len (acc ++ [block]) = sum_len acc + len doc + len h + 2)
      as Hblock.
    { rewrite sum_len_app, sum_len_cons. unfold block.
      rewrite len_block. simpl. lia. }
    apply IH in Hr as (new & -> & Hlen & Hin & Hnext & Hdocs); [|lia].
    rewrite Hblock in Hin, Hnext, Hdocs.
    assert (len block = len doc + len h + 2) as Hlb by apply len_block.
    exists (block :: new).
    rewrite <- app_assoc. split; [done|]. split; [simpl; lia|].
    split_and!.
    + intros [|i] p Hp.
      * injection Hp as <-. exists doc, md, dist, h.
        split_and!; try done. simpl. lia.
      * simpl in Hp. destruct (Hin i p Hp)
          as (doc' & md' & dist' & h' & Hrs & Hh & -> & Hfit).
        exists doc', md', dist', h'. split_and!; try done.
        cbn [take]. rewrite sum_len_cons. lia.
    + intros doc' md' dist' Hrs. simpl in Hrs.
      specialize (Hnext _ _ _ Hrs).
      rewrite sum_len_cons. lia.
    + intros _. cbn [length take]. rewrite fmap_cons, sum_len_cons.
      cbn [fst]. destruct new as [|p new].
      * cbn [length]. rewrite take_0. simpl. lia.
      * pose proof (len_nonneg h). specialize (Hdocs ltac:(done)). lia.
Qed.

(** X21: The loop of [retrieve_context] keeps a prefix of the results: block
    [i] is the header of result [i], a newline, its document and a
    newline, and it was admitted because the blocks before it and its
    document were within the budget.  The first result that does not fit
    ends the loop, so that no later result is looked at; and the documents
    of the blocks, without headers, hold at most [max_context_chars]
    characters together. *)
Theorem assemble_keeps_prefix {D} (rs : list (str * gmap str mval * D)) max
    parts :
  assemble rs max [] 0 = Ok parts →
  (length parts ≤ length rs)%nat ∧
  (∀ i p, parts !! i = Some p →
     ∃ doc md dist h,
       rs !! i = Some (doc, md, dist) ∧ header_of md = Ok h ∧
       p = h ++ [newline] ++ doc ++ [newline] ∧
       sum_len (take i parts) + len doc ≤ max) ∧
  (∀ doc md dist, rs !! length parts = Some (doc, md, dist) →
     max < sum_len parts + len doc) ∧
  (parts ≠ [] →
   sum_len ((λ r, r.1.1) <$> take (length parts) rs) ≤ max).
Proof.
  intros Hr. apply assemble_steps in Hr as (new & -> & H); [|done].
  simpl in *. done.
Qed.

Lemma assemble_keeps_prefix_witness :
  (length (replicate 5 six_block) ≤ length six_rows)%nat ∧
  (∀ i p, replicate 5 six_block !! i = Some p →
     ∃ doc md dist h,
       six_rows !! i = Some (doc, md, dist) ∧ header_of md = Ok h ∧
       p = h ++ [newline] ++ doc ++ [newline] ∧
       sum_len (take i (replicate 5 six_block)) + len doc ≤ 100) ∧
  (∀ doc md dist,
     six_rows !! length (replicate 5 six_block) = Some (doc, md, dist) →
     100 < sum_len (replicate 5 six_block) + len doc) ∧
  (replicate 5 six_block ≠ [] →
   sum_len ((λ r, r.1.1) <$> take (length (replicate 5 six_block)) six_rows)
     ≤ 100).
Proof.
  apply (assemble_keeps_prefix six_rows 100 (replicate 5 six_block)).
  by vm_compute.
Defined.

Lemma header_of_doc_part max d c :
  c ∈ doc_part max d →
  header_of (metadata c) = Ok (lit "[Documentation: " ++ path d ++ lit "]").
Proof.
  unfold doc_part. case_decide; [by intros ?%not_elem_of_nil|].
  unfold doc_chunks_of. intros (i & x & -> & _)%elem_of_lookup_imap.
  unfold header_of, doc_chunk. cbn [metadata].
  rewrite lookup_insert_eq. cbn [default].
  rewrite decide_True by done.
  rewrite lookup_insert_ne by done. by rewrite lookup_insert_eq.
Qed.

Lemma header_of_commit_chunk c mf (mdc : Z) ch :
  ch ∈ commit_chunks c mf mdc →
  header_of (metadata ch) =
  Ok (lit "[Commit " ++ slice_to (hash c) 8 ++ lit ": " ++ message c ++
      lit "]").
Proof.
  intros (i & hd & a & _ & _ & _ & _ & _ & Ht & Hs & Hm)%commit_chunk_parts.
  unfold header_of. rewrite Ht, Hs, Hm. cbn [default].
  rewrite decide_False by (intros [=]).
  by rewrite decide_True by done.
Qed.

Lemma header_of_repo_chunk_ok data c :
  c ∈ repo_chunks data → ∃ h, header_of (metadata c) = Ok h.
Proof.
  unfold repo_chunks. intros [Hc|Hc]%elem_of_app.
  - apply list_elem_of_bind in Hc as (d & Hc & _).
    eexists. by eapply header_of_doc_part.
  - rewrite chunk_commits_bind in Hc.
    apply list_elem_of_bind in Hc as (c0 & Hc & _).
    eexists. by eapply header_of_commit_chunk.
Qed.

(** X22: For the metadata [index_repo] stores with a chunk, the header of
    [retrieve_context] is [[Documentation: <path>]] of the document the
    chunk is cut from, or [[Commit <first 8 of the sha>: <message>]] of
    its commit; the lookup of the sha never raises. *)
Theorem header_of_repo_chunk data c :
  c ∈ repo_chunks data →
  (∃ d, d ∈ default [] (documentation data) ∧
        header_of (metadata c) =
        Ok (lit "[Documentation: " ++ path d ++ lit "]")) ∨
  (∃ c0, c0 ∈ default [] (commits data) ∧
         header_of (metadata c) =
         Ok (lit "[Commit " ++ slice_to (hash c0) 8 ++ lit ": " ++
             message c0 ++ lit "]")).
Proof.
  unfold repo_chunks. intros [Hc|Hc]%elem_of_app.
  - left. apply list_elem_of_bind in Hc as (d & Hc & Hd).
    exists d. split; [done|]. by eapply header_of_doc_part.
  - right. rewrite chunk_commits_bind in Hc.
    apply list_elem_of_bind in Hc as (c0 & Hc & Hc0).
    exists c0. split; [done|]. by eapply header_of_commit_chunk.
Qed.

Lemma header_of_repo_chunk_witness :
  (∃ d, d ∈ default [] (documentation small_repo) ∧
        header_of (metadata patch_chunk) =
        Ok (lit "[Documentation: " ++ path d ++ lit "]")) ∨
  (∃ c0, c0 ∈ default [] (commits small_repo) ∧
         header_of (metadata patch_chunk) =
         Ok (lit "[Commit " ++ slice_to (hash c0) 8 ++ lit ": " ++
             message c0 ++ lit "]")).
Proof.
  apply (header_of_repo_chunk small_repo patch_chunk).
  assert (repo_chunks small_repo = [readme_chunk; patch_chunk]) as ->
    by (by vm_compute).
  apply list_elem_of_further, list_elem_of_here.
Defined.

Lemma assemble_ok {D} max : ∀ (rs : list (str * gmap str mval * D)) acc total,
  Forall (λ r, ∃ h, header_of r.1.2 = Ok h) rs →
  ∃ parts, assemble rs max acc total = Ok parts.
Proof.
  induction rs as [|[[doc md] dist] rs IH]; intros acc total Hall; simpl.
  - by eexists.
  - destruct (_ >? _); [by eexists|].
    apply Forall_cons in Hall as [[h Hh] Hall]. simpl in Hh. rewrite Hh.
    by apply IH.
Qed.

(** X23: When every metadata dict of a query result is that of a chunk of a
    repository, as after [index_repo], [retrieve_context] does not raise
    while it assembles the context. *)
Theorem assemble_context_of_chunks {D} data (results : query_result D) max
    mds more_mds dists more_dists :
  metadatas results = mds :: more_mds →
  distances results = dists :: more_dists →
  Forall (λ md, ∃ c, c ∈ repo_chunks data ∧ md = metadata c) mds →
  ∃ s, assemble_context results max = Ok s.
Proof.
  intros Hm Hd Hall. unfold assemble_context. rewrite Hm, Hd.
  destruct (documents results) as [|[|doc docs] more]; [by eexists..|].
  destruct (assemble_ok max (zip3 (doc :: docs) mds dists) [] 0)
    as [parts ->].
  - apply Forall_forall. intros [[x md] d] Hin. simpl.
    unfold zip3 in Hin. apply elem_of_zip_l, elem_of_zip_r in Hin.
    simpl in Hin. rewrite Forall_forall in Hall.
    destruct (Hall md Hin) as (c & Hc & ->).
    by eapply header_of_repo_chunk_ok.
  - destruct parts; by eexists.
Qed.

Lemma assemble_context_of_chunks_witness :
  ∃ s, assemble_context
         (QueryResult [[text readme_chunk]] [[metadata readme_chunk]] [[250]])
         20000 = Ok s.
Proof.
  apply (assemble_context_of_chunks small_repo
           (QueryResult [[text readme_chunk]] [[metadata readme_chunk]]
              [[250]])
           20000 [metadata readme_chunk] [] [250] []).
  - reflexivity.
  - reflexivity.
  - apply Forall_singleton. exists readme_chunk. split; [|reflexivity].
    assert (repo_chunks small_repo = [readme_chunk; patch_chunk]) as ->
      by (by vm_compute).
    apply list_elem_of_here.
Defined.

Section WithQuery.
Context {D : Type}.
Variable sha256_hexdigest : str → str.
Variable query_collection :
  gmap str (entry (gmap str mval)) → str → Z → query_result D.

(** X24: The context [retrieve_context] returns, when it is not one of the two
    sentinels, has at most [max_context_chars] characters plus one header,
    two newlines, and the six characters of the delimiter for each result
    after the first; [H] bounds the headers of the results. *)
Theorem retrieve_context_length query url k cname max client H s
    docs mds dists :
  let name := resolve_collection_name sha256_hexdigest url cname in
  let results :=
    query_collection (default ∅ (client !! name)) query k in
  0 ≤ H →
  documents results = [docs] → metadatas results = [mds] →
  distances results = [dists] →
  Forall (λ md, ∀ h, header_of md = Ok h → len h ≤ H) mds →
  (retrieve_context sha256_hexdigest query_collection query url k cname
     max client).1 = Ok s →
  s = no_results ∨ s = no_results_within_limits ∨
  len s ≤ max + H + 2 + 6 * (Z.of_nat (length docs) - 1).
Proof.
  intros name results HH Hd Hm Hdi Hall. rewrite retrieve_context_eq.
  fold name results. intros Hs.
  change 6 with (len delimiter).
  by eapply assemble_context_length.
Qed.




End WithQuery.

Lemma retrieve_context_length_witness :
  join delimiter (replicate 5 six_block) = no_results ∨
  join delimiter (replicate 5 six_block) = no_results_within_limits ∨
  len (join delimiter (replicate 5 six_block))
    ≤ 100 + 18 + 2 + 6 * (Z.of_nat (length (replicate 6 (lit "x"))) - 1).
Proof.
  apply (retrieve_context_length sample_digest (λ _ _ _, six_results)
           (lit "what is it") (lit "https://github.com/o/r") 15 None 100 ∅
           18 (join delimiter (replicate 5 six_block))
           (replicate 6 (lit "x"))
           (replicate 6 (<[lit "type" := MStr (lit "doc")]>
                         (<[lit "path" := MStr (lit "a")]> ∅)))
           [101; 102; 103; 104; 105; 106]).
  - lia.
  - reflexivity.
  - reflexivity.
  - reflexivity.
  - apply Forall_forall. intros md Hmd h.
    apply elem_of_replicate in Hmd as [-> _].
    intros [= <-]. by vm_compute.
  - by vm_compute.
Defined.


End RetrievalMore.
